(** * The CP-SAT adapter of the linear solver: [SatSolveProto]

    A shallow embedding of
    [ortools/linear_solver/proto_solver/sat_proto_solver.cc] and the
    properties of its request -> presolve -> scale -> convert -> solve ->
    postsolve pipeline.

    Conventions of the embedding:
    - a C++ [double] is an IEEE-754 binary64 value, [spec_float] of the
      Standard Library with precision 53 and maximal exponent 1024;
    - [int], [int32_t] and [int64_t] values are [Z]; the one place where the
      source converts a signed value to [size_t] writes the wrap-around out;
    - protocol buffer messages are records holding the fields this file
      reads or writes, repeated fields are lists;
    - an out-of-range access to a repeated field or a vector, a failed
      [DCHECK] and a [double] to [int64_t] conversion of a value that does
      not fit have no defined result in the source: the embedding returns
      [None] there, so [SatSolveProto] has type
      [option (StatusOr MPSolutionResponse)];
    - functions of other translation units (validators, presolve, model
      conversion, the engine) are the fields of the class [Collaborators];
      [std::sort] is the field of the class [StdSort], together with what
      the C++ standard promises about it;
    - text sent to the [SolverLogger] and the solutions handed to
      [solution_callback] are write-only side channels of the source and are
      left out, and so are [interrupt_solve], which only the engine reads,
      and the default-constructed [glop::GlopParameters] the presolve
      receives. *)

From Stdlib Require Import ZArith List Lia SpecFloat.
From Stdlib Require Import Sorting.Sorted Sorting.Permutation.
From stdpp Require Import base option list strings.

Local Open Scope Z_scope.

(** ** IEEE-754 binary64 *)

Module Double.

Definition double : Type := spec_float.

Definition prec : Z := 53.
Definition emax : Z := 1024.

Definition mul : double -> double -> double := SFmul prec emax.
Definition div : double -> double -> double := SFdiv prec emax.
Definition add : double -> double -> double := SFadd prec emax.
Definition opp : double -> double := SFopp.
(** [std::abs] *)
Definition abs : double -> double := SFabs.

(** [a < b], [a > b], [a != b]: false, false, true when an operand is NaN. *)
Definition lt (a b : double) : bool := SFltb a b.
Definition gt (a b : double) : bool := SFltb b a.
Definition le (a b : double) : bool := SFleb a b.
Definition neq (a b : double) : bool := negb (SFeqb a b).

Definition is_nan (a : double) : bool :=
  match a with S754_nan => true | _ => false end.

(** Conversion of an integer to [double] (round to nearest, ties to even);
    this is [static_cast<double>] on an [int64_t]. *)
Definition of_Z (z : Z) : double := binary_normalize prec emax z 0 false.

Definition zero : double := S754_zero false.
Definition one : double := Eval vm_compute in of_Z 1.
Definition infinity : double := S754_infinity false.

(** The magnitude [m * 2^e] rounded to the nearest integer, halfway cases
    away from zero. *)
Definition round_magnitude (m : positive) (e : Z) : Z :=
  match e with
  | Z0 => Zpos m
  | Zpos p => Zpos m * 2 ^ Zpos p
  | Zneg p => (Zpos m + 2 ^ (Zpos p - 1)) / 2 ^ Zpos p
  end.

(** [std::round]: the nearest integer as a [double], halfway cases away
    from zero; zeros, infinities and NaN are returned unchanged. *)
Definition round (x : double) : double :=
  match x with
  | S754_finite s m e =>
      binary_normalize prec emax (cond_Zopp s (round_magnitude m e)) 0 s
  | _ => x
  end.

Definition int64_min : Z := - 2 ^ 63.
Definition int64_max : Z := 2 ^ 63 - 1.

(** [static_cast<int64_t>] on a [double]: truncation toward zero; the
    behaviour is undefined when the truncated value does not fit, which
    includes infinities and NaN. *)
Definition to_int64 (x : double) : option Z :=
  match x with
  | S754_zero _ => Some 0
  | S754_finite s m e =>
      let z := cond_Zopp s (Z.shiftl (Zpos m) e) in
      if (int64_min <=? z) && (z <=? int64_max) then Some z else None
  | S754_infinity _ | S754_nan => None
  end.

End Double.

Import Double.

(** ** Status values *)

(** [absl::StatusCode], [absl::Status] and [absl::StatusOr]. *)
Inductive StatusCode :=
  | kOk | kCancelled | kUnknown | kInvalidArgument | kDeadlineExceeded
  | kNotFound | kAlreadyExists | kPermissionDenied | kResourceExhausted
  | kFailedPrecondition | kAborted | kOutOfRange | kUnimplemented
  | kInternal | kUnavailable | kDataLoss | kUnauthenticated.

Record Status := { code : StatusCode; message : string }.

Inductive StatusOr (A : Type) :=
  | OkValue (a : A)
  | ErrorStatus (s : Status).
Arguments OkValue {A} a.
Arguments ErrorStatus {A} s.

Definition InvalidArgumentError {A} (msg : string) : StatusOr A :=
  ErrorStatus {| code := kInvalidArgument; message := msg |}.

(** [sat::CpSolverStatus]. The enum is open: the field of a received message
    may hold a number that names none of the five enumerators. *)
Inductive CpSolverStatus :=
  | UNKNOWN | MODEL_INVALID | FEASIBLE | INFEASIBLE | OPTIMAL
  | CpSolverStatus_unrecognized (raw : Z).

Inductive MPSolverResponseStatus :=
  | MPSOLVER_OPTIMAL | MPSOLVER_FEASIBLE | MPSOLVER_INFEASIBLE
  | MPSOLVER_UNBOUNDED | MPSOLVER_ABNORMAL | MPSOLVER_MODEL_INVALID
  | MPSOLVER_NOT_SOLVED | MPSOLVER_UNKNOWN_STATUS.

Definition MPSolverResponseStatus_eqb (a b : MPSolverResponseStatus) : bool :=
  match a, b with
  | MPSOLVER_OPTIMAL, MPSOLVER_OPTIMAL
  | MPSOLVER_FEASIBLE, MPSOLVER_FEASIBLE
  | MPSOLVER_INFEASIBLE, MPSOLVER_INFEASIBLE
  | MPSOLVER_UNBOUNDED, MPSOLVER_UNBOUNDED
  | MPSOLVER_ABNORMAL, MPSOLVER_ABNORMAL
  | MPSOLVER_MODEL_INVALID, MPSOLVER_MODEL_INVALID
  | MPSOLVER_NOT_SOLVED, MPSOLVER_NOT_SOLVED
  | MPSOLVER_UNKNOWN_STATUS, MPSOLVER_UNKNOWN_STATUS => true
  | _, _ => false
  end.

(** [glop::ProblemStatus]. *)
Inductive ProblemStatus :=
  | PS_OPTIMAL | PRIMAL_INFEASIBLE | DUAL_INFEASIBLE | INFEASIBLE_OR_UNBOUNDED
  | PRIMAL_UNBOUNDED | DUAL_UNBOUNDED | INIT | PRIMAL_FEASIBLE | DUAL_FEASIBLE
  | PS_ABNORMAL | INVALID_PROBLEM | IMPRECISE.

Definition ToMPSolverResponseStatus (status : CpSolverStatus)
    (has_objective : bool) : MPSolverResponseStatus :=
  match status with
  | UNKNOWN => MPSOLVER_NOT_SOLVED
  | MODEL_INVALID => MPSOLVER_MODEL_INVALID
  | FEASIBLE => MPSOLVER_FEASIBLE
  | INFEASIBLE => MPSOLVER_INFEASIBLE
  | OPTIMAL => MPSOLVER_OPTIMAL
  | _ => MPSOLVER_ABNORMAL
  end.

Definition FromMPSolverResponseStatus (status : MPSolverResponseStatus)
    : CpSolverStatus :=
  match status with
  | MPSOLVER_OPTIMAL => OPTIMAL
  | MPSOLVER_INFEASIBLE => INFEASIBLE
  | MPSOLVER_MODEL_INVALID => MODEL_INVALID
  | _ => UNKNOWN
  end.

(** ** Messages *)

(** [sat::SatParameters], the fields [SatSolveProto] reads or sets. *)
Record SatParameters := {
  log_search_progress : bool;
  log_to_stdout : bool;
  max_time_in_seconds : double;
  enumerate_all_solutions : bool;
  mip_presolve_level : Z;
  mip_automatically_scale_variables : bool;
  mip_var_scaling : double;
  mip_scale_large_domain : bool;
  mip_max_bound : double;
  only_solve_ip : bool
}.

Definition set_log_search_progress (p : SatParameters) (b : bool)
    : SatParameters :=
  {| log_search_progress := b;
     log_to_stdout := log_to_stdout p;
     max_time_in_seconds := max_time_in_seconds p;
     enumerate_all_solutions := enumerate_all_solutions p;
     mip_presolve_level := mip_presolve_level p;
     mip_automatically_scale_variables := mip_automatically_scale_variables p;
     mip_var_scaling := mip_var_scaling p;
     mip_scale_large_domain := mip_scale_large_domain p;
     mip_max_bound := mip_max_bound p;
     only_solve_ip := only_solve_ip p |}.

Definition set_mip_max_bound (p : SatParameters) (b : double)
    : SatParameters :=
  {| log_search_progress := log_search_progress p;
     log_to_stdout := log_to_stdout p;
     max_time_in_seconds := max_time_in_seconds p;
     enumerate_all_solutions := enumerate_all_solutions p;
     mip_presolve_level := mip_presolve_level p;
     mip_automatically_scale_variables := mip_automatically_scale_variables p;
     mip_var_scaling := mip_var_scaling p;
     mip_scale_large_domain := mip_scale_large_domain p;
     mip_max_bound := b;
     only_solve_ip := only_solve_ip p |}.

Definition set_max_time_in_seconds (p : SatParameters) (t : double)
    : SatParameters :=
  {| log_search_progress := log_search_progress p;
     log_to_stdout := log_to_stdout p;
     max_time_in_seconds := t;
     enumerate_all_solutions := enumerate_all_solutions p;
     mip_presolve_level := mip_presolve_level p;
     mip_automatically_scale_variables := mip_automatically_scale_variables p;
     mip_var_scaling := mip_var_scaling p;
     mip_scale_large_domain := mip_scale_large_domain p;
     mip_max_bound := mip_max_bound p;
     only_solve_ip := only_solve_ip p |}.

Record MPVariableProto := {
  lower_bound : double;
  upper_bound : double;
  is_integer : bool;
  objective_coefficient : double
}.

Record MPConstraintProto := {
  constraint_var_index : list Z;
  constraint_coefficient : list double;
  constraint_lower_bound : double;
  constraint_upper_bound : double
}.

(** [PartialVariableAssignment]: two parallel repeated fields. *)
Record PartialVariableAssignment := {
  var_index : list Z;
  var_value : list double
}.

Record MPModelProto := {
  variable : list MPVariableProto;
  constraint : list MPConstraintProto;
  maximize : bool;
  objective_offset : double;
  solution_hint : option PartialVariableAssignment
}.

Record MPModelRequest := {
  model : MPModelProto;
  enable_internal_solver_output : bool;
  solver_specific_parameters : option string;
  solver_time_limit_seconds : option double
}.

(** The default instance of [MPModelProto]: no variable, no constraint, no
    hint, and [maximize] false. *)
Definition MPModelProto_default : MPModelProto :=
  {| variable := []; constraint := []; maximize := false;
     objective_offset := zero; solution_hint := None |}.

(** [request.Clear()]: every field goes back to its default. *)
Definition MPModelRequest_Clear (request : MPModelRequest) : MPModelRequest :=
  {| model := MPModelProto_default;
     enable_internal_solver_output := false;
     solver_specific_parameters := None;
     solver_time_limit_seconds := None |}.

Record MPSolution := {
  objective_value : double;
  variable_value : list double
}.

Record MPSolveInfo := {
  solve_wall_time_seconds : double;
  solve_user_time_seconds : double
}.

Record MPSolutionResponse := {
  status : MPSolverResponseStatus;
  status_str : string;
  response_objective_value : double;
  best_objective_bound : double;
  response_variable_value : list double;
  additional_solutions : list MPSolution;
  solve_info : MPSolveInfo
}.

(** A default-constructed [MPSolutionResponse]. *)
Definition MPSolutionResponse_default : MPSolutionResponse :=
  {| status := MPSOLVER_UNKNOWN_STATUS;
     status_str := "";
     response_objective_value := zero;
     best_objective_bound := zero;
     response_variable_value := [];
     additional_solutions := [];
     solve_info := {| solve_wall_time_seconds := zero;
                      solve_user_time_seconds := zero |} |}.

Definition set_status (r : MPSolutionResponse) (s : MPSolverResponseStatus)
    : MPSolutionResponse :=
  {| status := s;
     status_str := status_str r;
     response_objective_value := response_objective_value r;
     best_objective_bound := best_objective_bound r;
     response_variable_value := response_variable_value r;
     additional_solutions := additional_solutions r;
     solve_info := solve_info r |}.

Definition set_status_str (r : MPSolutionResponse) (s : string)
    : MPSolutionResponse :=
  {| status := status r;
     status_str := s;
     response_objective_value := response_objective_value r;
     best_objective_bound := best_objective_bound r;
     response_variable_value := response_variable_value r;
     additional_solutions := additional_solutions r;
     solve_info := solve_info r |}.

Definition set_solve_info (r : MPSolutionResponse) (i : MPSolveInfo)
    : MPSolutionResponse :=
  {| status := status r;
     status_str := status_str r;
     response_objective_value := response_objective_value r;
     best_objective_bound := best_objective_bound r;
     response_variable_value := response_variable_value r;
     additional_solutions := additional_solutions r;
     solve_info := i |}.

(** The three assignments of the feasible/optimal branch. *)
Definition set_primal (r : MPSolutionResponse) (obj bound : double)
    (values : list double) : MPSolutionResponse :=
  {| status := status r;
     status_str := status_str r;
     response_objective_value := obj;
     best_objective_bound := bound;
     response_variable_value := values;
     additional_solutions := additional_solutions r;
     solve_info := solve_info r |}.

Definition set_additional_solutions (r : MPSolutionResponse)
    (l : list MPSolution) : MPSolutionResponse :=
  {| status := status r;
     status_str := status_str r;
     response_objective_value := response_objective_value r;
     best_objective_bound := best_objective_bound r;
     response_variable_value := response_variable_value r;
     additional_solutions := l;
     solve_info := solve_info r |}.

(** [*response.add_additional_solutions() = s] *)
Definition add_additional_solutions (r : MPSolutionResponse) (s : MPSolution)
    : MPSolutionResponse :=
  set_additional_solutions r (additional_solutions r ++ [s]).

(** [sat::FloatObjectiveProto], [sat::CpObjectiveProto], the hint and
    [sat::CpModelProto]. *)
Record FloatObjectiveProto := {
  fo_vars : list Z;
  fo_coeffs : list double;
  fo_offset : double
}.

Record CpObjectiveProto := {
  scaling_factor : double
}.

Record CpHint := {
  hint_vars : list Z;
  hint_values : list Z
}.

Record IntegerVariableProto := {
  domain : list Z
}.

Record CpModelProto := {
  variables : list IntegerVariableProto;
  has_objective : bool;
  objective : CpObjectiveProto;
  floating_point_objective : FloatObjectiveProto;
  cp_solution_hint : CpHint
}.

Definition set_cp_solution_hint (m : CpModelProto) (h : CpHint)
    : CpModelProto :=
  {| variables := variables m;
     has_objective := has_objective m;
     objective := objective m;
     floating_point_objective := floating_point_objective m;
     cp_solution_hint := h |}.

Record CpSolverResponse := {
  cp_status : CpSolverStatus;
  cp_objective_value : double;
  cp_best_objective_bound : double;
  solution : list Z;
  cp_additional_solutions : list (list Z);
  wall_time : double;
  user_time : double
}.

(** A default-constructed [sat::CpSolverResponse] (the [temp] of the
    additional-solution loop). *)
Definition CpSolverResponse_default : CpSolverResponse :=
  {| cp_status := UNKNOWN;
     cp_objective_value := zero;
     cp_best_objective_bound := zero;
     solution := [];
     cp_additional_solutions := [];
     wall_time := zero;
     user_time := zero |}.

(** [glop::ProblemSolution (RowIndex, ColIndex)]: the primal values, one per
    column, and the dual values, one per row. *)
Record ProblemSolution := {
  primal_values : list double;
  dual_values : list double
}.

Definition ProblemSolution_new (num_rows num_cols : nat) : ProblemSolution :=
  {| primal_values := replicate num_cols zero;
     dual_values := replicate num_rows zero |}.

Definition set_primal_values (s : ProblemSolution) (l : list double)
    : ProblemSolution :=
  {| primal_values := l; dual_values := dual_values s |}.

(** [glop::Preprocessor]: the interface of a recorded presolve step, of which
    [post_solve] calls the virtual [RecoverSolution]. *)
Record Preprocessor := {
  RecoverSolution : ProblemSolution -> ProblemSolution
}.

(** ** Collaborators *)

(** The functions [SatSolveProto] calls in other translation units. A C++
    function that fills or mutates an argument returns the new value of that
    argument next to its result. *)
Class Collaborators := {
  (** a default-constructed [sat::SatParameters] *)
  SatParameters_default : SatParameters;
  (** whether [sat::SatParameters] is a lite message in this build *)
  kProtoLiteSatParameters : bool;
  (** [params.MergeFromString(blob)]: [None] when it returns false *)
  MergeFromString : string -> SatParameters -> option SatParameters;
  (** [ProtobufTextFormatMergeFromString(blob, &params)] *)
  ProtobufTextFormatMergeFromString :
    string -> SatParameters -> option SatParameters;
  ExtractValidMPModelInPlaceOrPopulateResponseStatus :
    MPModelRequest -> MPSolutionResponse ->
    bool * MPModelRequest * MPSolutionResponse;
  MPModelProtoValidationBeforeConversion :
    SatParameters -> MPModelProto -> bool;
  (** [sat::ValidateParameters]: the empty string when the parameters are
      valid, an error message otherwise *)
  ValidateParameters : SatParameters -> string;
  MakeBoundsOfIntegerVariablesInteger :
    SatParameters -> MPModelProto -> bool * MPModelProto;
  RemoveNearZeroTerms : SatParameters -> MPModelProto -> MPModelProto;
  (** [ApplyMipPresolveSteps]: the status, the presolved model and the
      preprocessors pushed onto [for_postsolve], in the order they were
      applied *)
  ApplyMipPresolveSteps :
    MPModelProto -> ProblemStatus * MPModelProto * list Preprocessor;
  DetectImpliedIntegers : MPModelProto -> list double * MPModelProto;
  ScaleContinuousVariables :
    double -> double -> MPModelProto -> list double * MPModelProto;
  (** [ConvertMPModelProtoToCpModelProto]: [None] when it returns false *)
  ConvertMPModelProtoToCpModelProto :
    SatParameters -> MPModelProto -> option CpModelProto;
  (** [sat::SolveCpModel] on a [sat::Model] that holds the parameters *)
  SolveCpModel : CpModelProto -> SatParameters -> CpSolverResponse
}.

(** What [std::sort] requires of its comparator on the range it sorts: a
    strict weak ordering. *)
Definition strict_weak_order_on {A} (comp : A -> A -> bool) (l : list A)
    : Prop :=
  (forall x, In x l -> comp x x = false) /\
  (forall x y z, In x l -> In y l -> In z l ->
     comp x y = true -> comp y z = true -> comp x z = true) /\
  (forall x y z, In x l -> In y l -> In z l ->
     comp x y = false -> comp y x = false ->
     comp y z = false -> comp z y = false ->
     comp x z = false /\ comp z x = false).

(** The range is sorted with respect to [comp]: no element is ordered before
    one that precedes it. *)
Definition sorted_by {A} (comp : A -> A -> bool) (l : list A) : Prop :=
  StronglySorted (fun x y => comp y x = false) l.

(** [std::sort]: when the comparator is a strict weak ordering the result is
    a permutation of the range, sorted with respect to the comparator. The
    order of equivalent elements is not specified, and nothing is promised
    for another comparator. *)
Class StdSort := {
  std_sort : forall {A}, (A -> A -> bool) -> list A -> list A;
  std_sort_permutation : forall A (comp : A -> A -> bool) l,
    strict_weak_order_on comp l -> Permutation l (std_sort comp l);
  std_sort_sorted : forall A (comp : A -> A -> bool) l,
    strict_weak_order_on comp l -> sorted_by comp (std_sort comp l)
}.

(** ** Loops *)

(** [for (int i = start; i < start + count; ++i) body], the body threading a
    state and able to fail. *)
Fixpoint for_up {S} (count start : nat) (body : nat -> S -> option S) (s : S)
    : option S :=
  match count with
  | O => Some s
  | Datatypes.S count' =>
      match body start s with
      | Some s' => for_up count' (Datatypes.S start) body s'
      | None => None
      end
  end.

(** [for (int i = size; --i >= 0;) body] *)
Fixpoint for_down {S} (i : nat) (body : nat -> S -> option S) (s : S)
    : option S :=
  match i with
  | O => Some s
  | Datatypes.S j =>
      match body j s with
      | Some s' => for_down j body s'
      | None => None
      end
  end.

(** A range-based [for] over a repeated field. *)
Fixpoint for_each {A S} (l : list A) (body : A -> S -> option S) (s : S)
    : option S :=
  match l with
  | [] => Some s
  | x :: l' =>
      match body x s with
      | Some s' => for_each l' body s'
      | None => None
      end
  end.

(** [field(i)] and [vector[i]] with a signed index: defined inside the
    range only. *)
Definition get {A} (l : list A) (i : Z) : option A :=
  if i <? 0 then None else l !! Z.to_nat i.

(** The value of an [int] converted to [size_t] (64 bits). *)
Definition to_size_t (i : Z) : Z := i mod 2 ^ 64.

(** ** The pipeline *)

Section Pipeline.

Context `{!Collaborators} `{!StdSort}.

Definition InfeasibleResponse (message : string) : MPSolutionResponse :=
  set_status_str (set_status MPSolutionResponse_default MPSOLVER_INFEASIBLE)
    message.

Definition ModelInvalidResponse (message : string) : MPSolutionResponse :=
  set_status_str (set_status MPSolutionResponse_default MPSOLVER_MODEL_INVALID)
    message.

(** [error.empty()] *)
Definition empty (s : string) : bool :=
  match s with EmptyString => true | String _ _ => false end.

(** The decoding of [solver_specific_parameters] into [params], by the
    flavour of the build. *)
Definition merge_solver_specific_parameters (blob : string)
    (params : SatParameters) : StatusOr SatParameters :=
  if kProtoLiteSatParameters then
    match MergeFromString blob params with
    | Some params' => OkValue params'
    | None =>
        InvalidArgumentError
          ("solver_specific_parameters is not a valid binary stream of the "
           ++ "SatParameters proto")
    end
  else
    match ProtobufTextFormatMergeFromString blob params with
    | Some params' => OkValue params'
    | None =>
        InvalidArgumentError
          ("solver_specific_parameters is not a valid textual representation "
           ++ "of the SatParameters proto")
    end.

(** The parameters of the solve: the opening block of [SatSolveProto], up to
    the time limit. *)
Definition solve_parameters (request : MPModelRequest)
    : StatusOr SatParameters :=
  let params := SatParameters_default in
  let params :=
    set_log_search_progress params (enable_internal_solver_output request) in
  let merged :=
    match solver_specific_parameters request with
    | Some blob => merge_solver_specific_parameters blob params
    | None => OkValue params
    end in
  match merged with
  | ErrorStatus e => ErrorStatus e
  | OkValue params =>
      match solver_time_limit_seconds request with
      | Some limit => OkValue (set_max_time_in_seconds params limit)
      | None => OkValue params
      end
  end.

(** [var_scaling[i] *= other_scaling[i]] for every index of [var_scaling]. *)
Definition multiply_scaling (var_scaling other_scaling : list double)
    : option (list double) :=
  for_up (length var_scaling) 0
    (fun i scaling =>
       a ← scaling !! i;
       b ← other_scaling !! i;
       Some (<[i := mul a b]> scaling))
    var_scaling.

(** The value of a retained hint entry: scaled, then capped at plus or minus
    [mip_max_bound]. *)
Definition scaled_hint_value (params : SatParameters)
    (hint_value scaling : double) : double :=
  let value := mul hint_value scaling in
  if gt (abs value) (mip_max_bound params) then
    if gt value zero then mip_max_bound params
    else opp (mip_max_bound params)
  else value.

(** The body of the loop that copies the hint, at index [i]. *)
Definition copy_hint_entry (params : SatParameters)
    (hint : PartialVariableAssignment) (var_scaling : list double)
    (i : nat) (cp_model_hint : CpHint) : option CpHint :=
  var ← var_index hint !! i;
  if Z.of_nat (length var_scaling) <=? to_size_t var then Some cp_model_hint
  else
    hint_value ← var_value hint !! i;
    scaling ← get var_scaling var;
    rounded ← to_int64 (round (scaled_hint_value params hint_value scaling));
    Some {| hint_vars := hint_vars cp_model_hint ++ [var];
            hint_values := hint_values cp_model_hint ++ [rounded] |}.

(** Copy and scale the hint if there is one. *)
Definition copy_and_scale_hint (params : SatParameters)
    (mp_model : MPModelProto) (var_scaling : list double)
    (cp_model : CpModelProto) : option CpModelProto :=
  match solution_hint mp_model with
  | Some hint =>
      cp_model_hint ←
        for_up (length (var_index hint)) 0
          (copy_hint_entry params hint var_scaling)
          (cp_solution_hint cp_model);
      Some (set_cp_solution_hint cp_model cp_model_hint)
  | None => Some cp_model
  end.

(** The lambda [post_solve]; its captures are the first four arguments. *)
Definition post_solve (var_scaling : list double)
    (for_postsolve : list Preprocessor)
    (old_num_constraints old_num_variables : nat)
    (cp_response : CpSolverResponse) : option MPSolution :=
  let glop_solution :=
    ProblemSolution_new old_num_constraints old_num_variables in
  glop_solution ←
    for_up (length (primal_values glop_solution)) 0
      (fun v glop_solution =>
         x ← solution cp_response !! v;
         scaling ← var_scaling !! v;
         Some (set_primal_values glop_solution
                 (<[v := div (of_Z x) scaling]> (primal_values glop_solution))))
      glop_solution;
  glop_solution ←
    for_down (length for_postsolve)
      (fun i glop_solution =>
         preprocessor ← for_postsolve !! i;
         Some (RecoverSolution preprocessor glop_solution))
      glop_solution;
  Some {| objective_value := cp_objective_value cp_response;
          variable_value := primal_values glop_solution |}.

(** The objective value recomputed for an additional solution. *)
Definition additional_objective (cp_model : CpModelProto) (values : list Z)
    : option double :=
  let fo := floating_point_objective cp_model in
  obj ←
    for_up (length (fo_vars fo)) 0
      (fun i obj =>
         var ← fo_vars fo !! i;
         obj_coef ← fo_coeffs fo !! i;
         x ← get values var;
         Some (add obj (mul (of_Z x) obj_coef)))
      (fo_offset fo);
  Some (if neq (scaling_factor (objective cp_model)) zero
        then mul obj (scaling_factor (objective cp_model))
        else obj).

(** The body of the loop over [cp_response.additional_solutions()]. *)
Definition copy_additional_solution (cp_model : CpModelProto)
    (post_solve : CpSolverResponse -> option MPSolution)
    (cp_response : CpSolverResponse)
    (additional_solution : list Z) (response : MPSolutionResponse)
    : option MPSolutionResponse :=
  if bool_decide (additional_solution = solution cp_response)
  then Some response
  else
    obj ← additional_objective cp_model additional_solution;
    let temp :=
      {| cp_status := cp_status CpSolverResponse_default;
         cp_objective_value := obj;
         cp_best_objective_bound :=
           cp_best_objective_bound CpSolverResponse_default;
         solution := additional_solution;
         cp_additional_solutions :=
           cp_additional_solutions CpSolverResponse_default;
         wall_time := wall_time CpSolverResponse_default;
         user_time := user_time CpSolverResponse_default |} in
    mp_solution ← post_solve temp;
    Some (add_additional_solutions response mp_solution).

(** The comparator handed to [std::sort]. *)
Definition additional_solution_order (is_maximize : bool)
    (left right : MPSolution) : bool :=
  if is_maximize then gt (objective_value left) (objective_value right)
  else lt (objective_value left) (objective_value right).

(** "Convert the response": from the engine's response to the returned one.
    [request] is the request as it is at that point of [SatSolveProto]. *)
Definition convert_response (request : MPModelRequest)
    (cp_model : CpModelProto)
    (post_solve : CpSolverResponse -> option MPSolution)
    (cp_response : CpSolverResponse) (response : MPSolutionResponse)
    : option MPSolutionResponse :=
  let response :=
    set_solve_info response
      {| solve_wall_time_seconds := wall_time cp_response;
         solve_user_time_seconds := user_time cp_response |} in
  let response :=
    set_status response
      (ToMPSolverResponseStatus (cp_status cp_response)
         (has_objective cp_model)) in
  response ←
    (if MPSolverResponseStatus_eqb (status response) MPSOLVER_FEASIBLE
        || MPSolverResponseStatus_eqb (status response) MPSOLVER_OPTIMAL
     then
       post_solved_solution ← post_solve cp_response;
       Some (set_primal response (cp_objective_value cp_response)
               (cp_best_objective_bound cp_response)
               (variable_value post_solved_solution))
     else Some response);
  response ←
    for_each (cp_additional_solutions cp_response)
      (copy_additional_solution cp_model post_solve cp_response) response;
  let is_maximize := maximize (model request) in
  Some (set_additional_solutions response
          (std_sort (additional_solution_order is_maximize)
             (additional_solutions response))).

(** The uniform scaling of the continuous variables, multiplied into
    [var_scaling]. *)
Definition scale_continuous (params : SatParameters) (mp_model : MPModelProto)
    (var_scaling : list double) : option (list double * MPModelProto) :=
  if neq (mip_var_scaling params) one then
    let max_bound :=
      if mip_scale_large_domain params then infinity
      else mip_max_bound params in
    let '(other_scaling, mp_model) :=
      ScaleContinuousVariables (mip_var_scaling params) max_bound mp_model in
    var_scaling ← multiply_scaling var_scaling other_scaling;
    Some (var_scaling, mp_model)
  else Some (var_scaling, mp_model).

(** From "Abort if one only want to solve pure-IP model" to the end:
    conversion, hint, solve and response. *)
Definition convert_and_solve (params : SatParameters)
    (request : MPModelRequest) (mp_model : MPModelProto)
    (var_scaling : list double) (for_postsolve : list Preprocessor)
    (response : MPSolutionResponse)
    : option (StatusOr MPSolutionResponse) :=
  if only_solve_ip params && negb (forallb is_integer (variable mp_model))
  then
    Some (OkValue (ModelInvalidResponse
      ("The model contains non-integer variables but the parameter "
       ++ "'only_solve_ip' was set. Change this parameter if you "
       ++ "still want to solve a more constrained version of the original MIP "
       ++ "where non-integer variables can only take a finite set of values.")))
  else
    match ConvertMPModelProtoToCpModelProto params mp_model with
    | None =>
        Some (OkValue (ModelInvalidResponse
                         "Failed to convert model into CP-SAT model"))
    | Some cp_model =>
        (* the two DCHECK_EQ *)
        if negb (Nat.eqb (length (variables cp_model)) (length var_scaling))
           || negb (Nat.eqb (length (variables cp_model))
                      (length (variable mp_model)))
        then None
        else
          cp_model ← copy_and_scale_hint params mp_model var_scaling cp_model;
          let old_num_variables := length (variable mp_model) in
          let old_num_constraints := length (constraint mp_model) in
          let request := MPModelRequest_Clear request in
          let post_solve :=
            post_solve var_scaling for_postsolve
              old_num_constraints old_num_variables in
          let cp_response := SolveCpModel cp_model params in
          response ←
            convert_response request cp_model post_solve cp_response response;
          Some (OkValue response)
    end.

(** From the second [RemoveNearZeroTerms] on: scaling to a pure integer
    problem, then [convert_and_solve]. *)
Definition scale_and_solve (params : SatParameters)
    (request : MPModelRequest) (mp_model : MPModelProto)
    (for_postsolve : list Preprocessor) (response : MPSolutionResponse)
    : option (StatusOr MPSolutionResponse) :=
  let mp_model := RemoveNearZeroTerms params mp_model in
  let num_variables := length (variable mp_model) in
  let var_scaling := replicate num_variables one in
  let continue_with var_scaling mp_model :=
    match scale_continuous params mp_model var_scaling with
    | Some (var_scaling, mp_model) =>
        convert_and_solve params request mp_model var_scaling for_postsolve
          response
    | None => None
    end in
  if mip_automatically_scale_variables params then
    let '(var_scaling, mp_model) := DetectImpliedIntegers mp_model in
    let '(ok, mp_model) :=
      MakeBoundsOfIntegerVariablesInteger params mp_model in
    if negb ok then
      Some (OkValue (InfeasibleResponse
                       "A detected integer variable has an empty domain"))
    else continue_with var_scaling mp_model
  else continue_with var_scaling mp_model.

(** From "This is good to do before any presolve" on: bound integerization
    and MIP presolve, then [scale_and_solve]. *)
Definition presolve_and_solve (params : SatParameters)
    (request : MPModelRequest) (mp_model : MPModelProto)
    (response : MPSolutionResponse)
    : option (StatusOr MPSolutionResponse) :=
  let '(ok, mp_model) :=
    MakeBoundsOfIntegerVariablesInteger params mp_model in
  if negb ok then
    Some (OkValue (InfeasibleResponse
                     "An integer variable has an empty domain"))
  else
    let mp_model := RemoveNearZeroTerms params mp_model in
    if negb (enumerate_all_solutions params)
       && (0 <? mip_presolve_level params)
    then
      let '(status, mp_model, for_postsolve) :=
        ApplyMipPresolveSteps mp_model in
      match status with
      | INIT =>
          scale_and_solve params request mp_model for_postsolve response
      | PRIMAL_INFEASIBLE =>
          Some (OkValue (InfeasibleResponse
                           "Problem proven infeasible during MIP presolve"))
      | INVALID_PROBLEM =>
          Some (OkValue (ModelInvalidResponse
                           "Problem detected invalid during MIP presolve"))
      | _ =>
          let response := set_status response MPSOLVER_UNKNOWN_STATUS in
          let response :=
            match status with
            | INFEASIBLE_OR_UNBOUNDED =>
                set_status_str response
                  "Problem proven infeasible or unbounded during MIP presolve"
            | _ => response
            end in
          Some (OkValue response)
      end
    else scale_and_solve params request mp_model [] response.

(** [SatSolveProto]. [None] is a run without a defined result. *)
Definition SatSolveProto (request : MPModelRequest)
    : option (StatusOr MPSolutionResponse) :=
  match solve_parameters request with
  | ErrorStatus e => Some (ErrorStatus e)
  | OkValue params =>
      (* Model validation and delta handling. *)
      let response := MPSolutionResponse_default in
      let '(valid, request, response) :=
        ExtractValidMPModelInPlaceOrPopulateResponseStatus request response in
      if negb valid then Some (OkValue response)
      else
        let mp_model := model request in
        if negb (MPModelProtoValidationBeforeConversion params mp_model)
        then
          Some (OkValue
                  (ModelInvalidResponse "Extra CP-SAT validation failed."))
        else
          let error := ValidateParameters params in
          if negb (empty error) then
            Some (OkValue (ModelInvalidResponse
                             ("Invalid CP-SAT parameters: " ++ error)))
          else presolve_and_solve params request mp_model response
  end.

End Pipeline.

(** ** A sorting function that meets [StdSort] *)

(** Insertion from the right end of the range. It orders equivalent elements
    in the reverse of their original order: [StdSort] does not ask for a
    stable sort. *)
Fixpoint insert_by {A} (comp : A -> A -> bool) (x : A) (l : list A) : list A :=
  match l with
  | [] => [x]
  | y :: l' => if comp x y then x :: y :: l' else y :: insert_by comp x l'
  end.

Definition insertion_sort {A} (comp : A -> A -> bool) (l : list A) : list A :=
  fold_right (insert_by comp) [] l.

(** ** Stand-ins for the collaborators *)

Definition double_of_Z_pow10 (m : Z) (e : Z) : double := of_Z (m * 10 ^ e).

Definition ten_million : double := Eval vm_compute in double_of_Z_pow10 1 7.

(** The defaults of [sat_parameters.proto]. *)
Definition stub_default_parameters : SatParameters :=
  {| log_search_progress := false;
     log_to_stdout := true;
     max_time_in_seconds := infinity;
     enumerate_all_solutions := false;
     mip_presolve_level := 2;
     mip_automatically_scale_variables := true;
     mip_var_scaling := one;
     mip_scale_large_domain := false;
     mip_max_bound := ten_million;
     only_solve_ip := false |}.

(** An integer variable has a non-empty domain. *)
Definition stub_bounds_ok (m : MPModelProto) : bool :=
  forallb (fun v => negb (is_integer v) || le (lower_bound v) (upper_bound v))
    (variable m).

Definition stub_convert (m : MPModelProto) : CpModelProto :=
  {| variables := map (fun _ => {| domain := [] |}) (variable m);
     has_objective := true;
     objective := {| scaling_factor := zero |};
     floating_point_objective :=
       {| fo_vars := map Z.of_nat (seq 0 (length (variable m)));
          fo_coeffs := map objective_coefficient (variable m);
          fo_offset := objective_offset m |};
     cp_solution_hint := {| hint_vars := []; hint_values := [] |} |}.

(** Collaborators that accept every model; the decoder of the parameter
    blob, the parameter validator, the detection of implied integers and the
    engine are given. *)
Definition stub_collaborators
    (decode : string -> SatParameters -> option SatParameters)
    (validate : SatParameters -> string)
    (detect : MPModelProto -> list double * MPModelProto)
    (engine : CpModelProto -> SatParameters -> CpSolverResponse)
    : Collaborators :=
  {| SatParameters_default := stub_default_parameters;
     kProtoLiteSatParameters := false;
     MergeFromString := decode;
     ProtobufTextFormatMergeFromString := decode;
     ExtractValidMPModelInPlaceOrPopulateResponseStatus :=
       fun request response => (true, request, response);
     MPModelProtoValidationBeforeConversion := fun _ _ => true;
     ValidateParameters := validate;
     MakeBoundsOfIntegerVariablesInteger :=
       fun _ m => (stub_bounds_ok m, m);
     RemoveNearZeroTerms := fun _ m => m;
     ApplyMipPresolveSteps := fun m => (INIT, m, []);
     DetectImpliedIntegers := detect;
     ScaleContinuousVariables :=
       fun _ _ m => (replicate (length (variable m)) one, m);
     ConvertMPModelProtoToCpModelProto := fun _ m => Some (stub_convert m);
     SolveCpModel := engine |}.

(** A decoder that understands two blobs. *)
Definition stub_decode (blob : string) (p : SatParameters)
    : option SatParameters :=
  if String.eqb blob "log_search_progress: true"
  then Some (set_log_search_progress p true)
  else if String.eqb blob "max_time_in_seconds: 5"
  then Some (set_max_time_in_seconds p (of_Z 5))
  else if String.eqb blob "mip_max_bound: -1"
  then Some (set_mip_max_bound p (of_Z (-1)))
  else if String.eqb blob "" then Some p
  else None.

(** A detection that finds no implied integer. *)
Definition no_detection (m : MPModelProto) : list double * MPModelProto :=
  (replicate (length (variable m)) one, m).

(** A detection that takes every variable for an integer. *)
Definition eager_detection (m : MPModelProto) : list double * MPModelProto :=
  (replicate (length (variable m)) one,
   {| variable :=
        map (fun v => {| lower_bound := lower_bound v;
                         upper_bound := upper_bound v;
                         is_integer := true;
                         objective_coefficient := objective_coefficient v |})
          (variable m);
      constraint := constraint m;
      maximize := maximize m;
      objective_offset := objective_offset m;
      solution_hint := solution_hint m |}).

(** A validator of one range: [mip_max_bound] in [0, 1e17]. *)
Definition stub_validate (p : SatParameters) : string :=
  if le zero (mip_max_bound p)
     && le (mip_max_bound p) (double_of_Z_pow10 1 17)
  then ""
  else "parameter 'mip_max_bound' should be in [0,1e17]".

(** An engine that reports nothing. *)
Definition silent_engine (_ : CpModelProto) (_ : SatParameters)
    : CpSolverResponse :=
  CpSolverResponse_default.

(** An engine that reports the optimum 10 of one variable, and the
    solutions 10, 9 and 7 as additional ones, in this order. *)
Definition ranking_engine (_ : CpModelProto) (_ : SatParameters)
    : CpSolverResponse :=
  {| cp_status := OPTIMAL;
     cp_objective_value := of_Z 10;
     cp_best_objective_bound := of_Z 10;
     solution := [10];
     cp_additional_solutions := [[10]; [9]; [7]];
     wall_time := zero;
     user_time := zero |}.

(** The post-solved solution "x = v" of a model whose objective is x. *)
Definition solution_at (v : Z) : MPSolution :=
  {| objective_value := of_Z v; variable_value := [of_Z v] |}.

Definition integer_variable (lb ub : Z) : MPVariableProto :=
  {| lower_bound := of_Z lb; upper_bound := of_Z ub;
     is_integer := true; objective_coefficient := one |}.

(** The model "maximize x, x an integer in [lb, ub]" as a request. *)
Definition maximize_request (lb ub : Z) : MPModelRequest :=
  {| model :=
       {| variable := [integer_variable lb ub];
          constraint := [];
          maximize := true;
          objective_offset := zero;
          solution_hint := None |};
     enable_internal_solver_output := false;
     solver_specific_parameters := None;
     solver_time_limit_seconds := None |}.

(** The model "minimize x, x a real in [lb, ub]" as a request. *)
Definition continuous_request (lb ub : Z) : MPModelRequest :=
  {| model :=
       {| variable :=
            [{| lower_bound := of_Z lb; upper_bound := of_Z ub;
                is_integer := false; objective_coefficient := one |}];
          constraint := [];
          maximize := false;
          objective_offset := zero;
          solution_hint := None |};
     enable_internal_solver_output := false;
     solver_specific_parameters := None;
     solver_time_limit_seconds := None |}.

Definition with_parameters (request : MPModelRequest) (blob : string)
    : MPModelRequest :=
  {| model := model request;
     enable_internal_solver_output := enable_internal_solver_output request;
     solver_specific_parameters := Some blob;
     solver_time_limit_seconds := solver_time_limit_seconds request |}.

(** Two recorded presolve steps, for the order of their recovery: one had
    shifted every column by [d], one had removed a column fixed at [x]. *)
Definition shifted_columns (d : double) : Preprocessor :=
  {| RecoverSolution := fun s =>
       set_primal_values s (map (add d) (primal_values s)) |}.

Definition removed_column (x : double) : Preprocessor :=
  {| RecoverSolution := fun s =>
       set_primal_values s (primal_values s ++ [x]) |}.

Definition with_time_limit (request : MPModelRequest) (limit : double)
    : MPModelRequest :=
  {| model := model request;
     enable_internal_solver_output := enable_internal_solver_output request;
     solver_specific_parameters := solver_specific_parameters request;
     solver_time_limit_seconds := Some limit |}.

Definition with_solution_hint (m : MPModelProto)
    (hint : PartialVariableAssignment) : MPModelProto :=
  {| variable := variable m;
     constraint := constraint m;
     maximize := maximize m;
     objective_offset := objective_offset m;
     solution_hint := Some hint |}.

(** ** The status mapping as the specification words it *)

(** The status mapping of the specification: optimal, infeasible,
    model-invalid and feasible map to themselves, anything else maps to
    abnormal. *)
Definition spec_status_mapping (s : CpSolverStatus) : MPSolverResponseStatus :=
  match s with
  | OPTIMAL => MPSOLVER_OPTIMAL
  | INFEASIBLE => MPSOLVER_INFEASIBLE
  | MODEL_INVALID => MPSOLVER_MODEL_INVALID
  | FEASIBLE => MPSOLVER_FEASIBLE
  | _ => MPSOLVER_ABNORMAL
  end.

(** ** Vocabulary of the properties *)

(** The value of an engine variable brought back to the scale of the
    model. *)
Definition unscale (x : Z) (scaling : double) : double := div (of_Z x) scaling.

(** The integer [n] is at distance at most one half from [m * 2^e]. *)
Definition nearest_integer (n : Z) (m : positive) (e : Z) : Prop :=
  match e with
  | Zneg p => Z.abs (2 * (n * 2 ^ Zpos p - Zpos m)) <= 2 ^ Zpos p
  | _ => n = Zpos m * 2 ^ e
  end.

(** The post-solved form of an additional solution of the engine, with its
    recomputed objective value. *)
Definition postsolved_additional (cp_model : CpModelProto)
    (post_solve : CpSolverResponse -> option MPSolution) (values : list Z)
    : option MPSolution :=
  obj ← additional_objective cp_model values;
  post_solve
    {| cp_status := UNKNOWN;
       cp_objective_value := obj;
       cp_best_objective_bound := zero;
       solution := values;
       cp_additional_solutions := [];
       wall_time := zero;
       user_time := zero |}.

Section Vocabulary.

Context `{!Collaborators}.

(** The decoder of the build flavour. *)
Definition decode_parameters (blob : string) (params : SatParameters)
    : option SatParameters :=
  if kProtoLiteSatParameters then MergeFromString blob params
  else ProtobufTextFormatMergeFromString blob params.

(** The parameters the blob is merged into. *)
Definition initial_parameters (request : MPModelRequest) : SatParameters :=
  set_log_search_progress SatParameters_default
    (enable_internal_solver_output request).

(** The outcome of the MIP presolve block: the status, the model and the
    recorded preprocessors; the block is skipped when all solutions are to be
    enumerated or the presolve level is not positive. *)
Definition presolve_outcome (params : SatParameters) (mp_model : MPModelProto)
    : ProblemStatus * MPModelProto * list Preprocessor :=
  if negb (enumerate_all_solutions params) && (0 <? mip_presolve_level params)
  then ApplyMipPresolveSteps mp_model
  else (INIT, mp_model, []).

(** Bound integerization finds an empty domain on the validated model
    [mp_model]: at its first call, before presolve, or at its second call,
    after presolve went through and the detection of implied integers ran.
    The string is the message of the call. *)
Inductive empty_domain_detected (params : SatParameters)
    (mp_model : MPModelProto) : string -> Prop :=
  | empty_before_presolve m :
      MakeBoundsOfIntegerVariablesInteger params mp_model = (false, m) ->
      empty_domain_detected params mp_model
        "An integer variable has an empty domain"
  | empty_after_detection m1 m2 for_postsolve var_scaling m3 m4 :
      MakeBoundsOfIntegerVariablesInteger params mp_model = (true, m1) ->
      presolve_outcome params (RemoveNearZeroTerms params m1)
        = (INIT, m2, for_postsolve) ->
      mip_automatically_scale_variables params = true ->
      DetectImpliedIntegers (RemoveNearZeroTerms params m2)
        = (var_scaling, m3) ->
      MakeBoundsOfIntegerVariablesInteger params m3 = (false, m4) ->
      empty_domain_detected params mp_model
        "A detected integer variable has an empty domain".

End Vocabulary.

(** ** Variations of the collaborators *)

(** The same collaborators with another MIP presolve. *)
Definition with_presolve (C : Collaborators)
    (presolve : MPModelProto ->
                ProblemStatus * MPModelProto * list Preprocessor)
    : Collaborators :=
  {| SatParameters_default := @SatParameters_default C;
     kProtoLiteSatParameters := @kProtoLiteSatParameters C;
     MergeFromString := @MergeFromString C;
     ProtobufTextFormatMergeFromString :=
       @ProtobufTextFormatMergeFromString C;
     ExtractValidMPModelInPlaceOrPopulateResponseStatus :=
       @ExtractValidMPModelInPlaceOrPopulateResponseStatus C;
     MPModelProtoValidationBeforeConversion :=
       @MPModelProtoValidationBeforeConversion C;
     ValidateParameters := @ValidateParameters C;
     MakeBoundsOfIntegerVariablesInteger :=
       @MakeBoundsOfIntegerVariablesInteger C;
     RemoveNearZeroTerms := @RemoveNearZeroTerms C;
     ApplyMipPresolveSteps := presolve;
     DetectImpliedIntegers := @DetectImpliedIntegers C;
     ScaleContinuousVariables := @ScaleContinuousVariables C;
     ConvertMPModelProtoToCpModelProto :=
       @ConvertMPModelProtoToCpModelProto C;
     SolveCpModel := @SolveCpModel C |}.

(** A presolve that stops with a given status. *)
Definition stopping_presolve (status : ProblemStatus) (m : MPModelProto)
    : ProblemStatus * MPModelProto * list Preprocessor :=
  (status, m, []).

(** The same collaborators with another model validator. *)
Definition with_model_validator (C : Collaborators)
    (validator : MPModelRequest -> MPSolutionResponse ->
                 bool * MPModelRequest * MPSolutionResponse)
    : Collaborators :=
  {| SatParameters_default := @SatParameters_default C;
     kProtoLiteSatParameters := @kProtoLiteSatParameters C;
     MergeFromString := @MergeFromString C;
     ProtobufTextFormatMergeFromString :=
       @ProtobufTextFormatMergeFromString C;
     ExtractValidMPModelInPlaceOrPopulateResponseStatus := validator;
     MPModelProtoValidationBeforeConversion :=
       @MPModelProtoValidationBeforeConversion C;
     ValidateParameters := @ValidateParameters C;
     MakeBoundsOfIntegerVariablesInteger :=
       @MakeBoundsOfIntegerVariablesInteger C;
     RemoveNearZeroTerms := @RemoveNearZeroTerms C;
     ApplyMipPresolveSteps := @ApplyMipPresolveSteps C;
     DetectImpliedIntegers := @DetectImpliedIntegers C;
     ScaleContinuousVariables := @ScaleContinuousVariables C;
     ConvertMPModelProtoToCpModelProto :=
       @ConvertMPModelProtoToCpModelProto C;
     SolveCpModel := @SolveCpModel C |}.

(** A validator that closes every model as trivially infeasible. *)
Definition closing_validator (request : MPModelRequest)
    (response : MPSolutionResponse)
    : bool * MPModelRequest * MPSolutionResponse :=
  (false, request,
   set_status_str (set_status response MPSOLVER_INFEASIBLE)
     "trivially infeasible").

(** The default parameters with [enumerate_all_solutions] set. *)
Definition enumerating_parameters : SatParameters :=
  {| log_search_progress := false;
     log_to_stdout := true;
     max_time_in_seconds := infinity;
     enumerate_all_solutions := true;
     mip_presolve_level := 2;
     mip_automatically_scale_variables := true;
     mip_var_scaling := one;
     mip_scale_large_domain := false;
     mip_max_bound := ten_million;
     only_solve_ip := false |}.

(** The default parameters with [only_solve_ip] set. *)
Definition only_ip_parameters : SatParameters :=
  {| log_search_progress := false;
     log_to_stdout := true;
     max_time_in_seconds := infinity;
     enumerate_all_solutions := false;
     mip_presolve_level := 2;
     mip_automatically_scale_variables := true;
     mip_var_scaling := one;
     mip_scale_large_domain := false;
     mip_max_bound := ten_million;
     only_solve_ip := true |}.

(** The default parameters with a uniform scaling of two. *)
Definition doubling_parameters : SatParameters :=
  {| log_search_progress := false;
     log_to_stdout := true;
     max_time_in_seconds := infinity;
     enumerate_all_solutions := false;
     mip_presolve_level := 2;
     mip_automatically_scale_variables := true;
     mip_var_scaling := of_Z 2;
     mip_scale_large_domain := false;
     mip_max_bound := ten_million;
     only_solve_ip := false |}.

(** An [int] index that names one of [n] variables. *)
Definition valid_index (n : nat) (v : Z) : Prop := 0 <= v < Z.of_nat n.

#[local] Instance valid_index_dec n v : Decision (valid_index n v) :=
  and_dec (Z.le_dec 0 v) (Z.lt_dec v (Z.of_nat n)).

(** One term of the objective, the value of its variable and its
    coefficient, added to the running sum. *)
Definition add_term (obj : double) (term : Z * double) : double :=
  add obj (mul (of_Z (fst term)) (snd term)).

(** ** Encoding of the parameters *)

(** The two printers of [sat::SatParameters], of other translation units:
    [parameters.SerializeToString(&bytes)], [None] when it returns false, and
    [ProtobufShortDebugString(parameters)]. *)
Class Printers := {
  SerializeToString : SatParameters -> option string;
  ProtobufShortDebugString : SatParameters -> string
}.

(** [EncodeSatParametersAsString]. [None] is the failed [CHECK] on the
    result of [SerializeToString]. *)
Definition EncodeSatParametersAsString `{!Collaborators} `{!Printers}
    (parameters : SatParameters) : option string :=
  if kProtoLiteSatParameters then
    match SerializeToString parameters with
    | Some bytes => Some bytes
    | None => None
    end
  else Some (ProtobufShortDebugString parameters).

(** Printers for the blobs [stub_decode] understands. *)
Definition stub_printers : Printers :=
  {| SerializeToString := fun _ => None;
     ProtobufShortDebugString := fun p =>
       if log_search_progress p then "log_search_progress: true" else "" |}.
(** * Properties *)

(** ** Sorting *)

Lemma strict_weak_order_on_incl {A} (comp : A -> A -> bool) (l l' : list A) :
  (forall x, In x l' -> In x l) ->
  strict_weak_order_on comp l -> strict_weak_order_on comp l'.
Proof.
  intros Hincl (Hirr & Htrans & Heq).
  repeat split; intros; eauto.
  - eapply (Heq x y z); eauto.
  - eapply (Heq x y z); eauto.
Qed.

Lemma strict_weak_order_on_asym {A} (comp : A -> A -> bool) (l : list A) x y :
  strict_weak_order_on comp l -> In x l -> In y l ->
  comp x y = true -> comp y x = false.
Proof.
  intros (Hirr & Htrans & _) Hx Hy Hxy.
  destruct (comp y x) eqn:Hyx; [|reflexivity].
  rewrite <- (Hirr x Hx). symmetry. eapply Htrans; eauto.
Qed.

Lemma insert_by_permutation {A} (comp : A -> A -> bool) x l :
  Permutation (x :: l) (insert_by comp x l).
Proof.
  induction l as [|y l IH]; simpl.
  - reflexivity.
  - destruct (comp x y).
    + reflexivity.
    + rewrite perm_swap. apply perm_skip, IH.
Qed.

Lemma insertion_sort_permutation {A} (comp : A -> A -> bool) l :
  Permutation l (insertion_sort comp l).
Proof.
  induction l as [|x l IH]; simpl.
  - reflexivity.
  - rewrite <- insert_by_permutation. apply perm_skip, IH.
Qed.

Lemma insert_by_sorted {A} (comp : A -> A -> bool) x l :
  strict_weak_order_on comp (x :: l) ->
  sorted_by comp l -> sorted_by comp (insert_by comp x l).
Proof.
  unfold sorted_by.
  induction l as [|y l IH]; intros Hswo Hsorted; simpl.
  - repeat constructor.
  - apply StronglySorted_inv in Hsorted as [Hl Hy].
    destruct (comp x y) eqn:Hxy.
    + constructor; [constructor; assumption|].
      constructor.
      * eapply strict_weak_order_on_asym; eauto; simpl; auto.
      * rewrite List.Forall_forall in *. intros z Hz.
        destruct (comp z x) eqn:Hzx; [|reflexivity].
        rewrite <- (Hy z Hz). symmetry.
        destruct Hswo as (_ & Htrans & _).
        apply (Htrans z x y); simpl; auto.
    + constructor.
      * apply IH; [|assumption].
        eapply strict_weak_order_on_incl; [|exact Hswo].
        simpl. intuition.
      * eapply Permutation_Forall; [apply insert_by_permutation|].
        constructor; assumption.
Qed.

Lemma insertion_sort_sorted {A} (comp : A -> A -> bool) l :
  strict_weak_order_on comp l -> sorted_by comp (insertion_sort comp l).
Proof.
  induction l as [|x l IH]; intros Hswo; simpl.
  - constructor.
  - apply insert_by_sorted.
    + eapply strict_weak_order_on_incl; [|exact Hswo].
      intros z [->|Hz]; simpl; auto.
      right. eapply Permutation_in; [|exact Hz].
      symmetry. apply insertion_sort_permutation.
    + apply IH. eapply strict_weak_order_on_incl; [|exact Hswo].
      simpl; auto.
Qed.

#[local] Instance insertion_StdSort : StdSort :=
  {| std_sort := @insertion_sort;
     std_sort_permutation :=
       fun A comp l _ => insertion_sort_permutation comp l;
     std_sort_sorted := @insertion_sort_sorted |}.

(** ** Comparison of doubles *)

Lemma compare_cont_Eq m n : Pos.compare_cont Eq m n = Pos.compare m n.
Proof. reflexivity. Qed.

Ltac compare_cases :=
  repeat match goal with
  | |- context [Z.compare ?a ?b] =>
      destruct (Z.compare_spec a b); try lia; subst
  | H : context [Z.compare ?a ?b] |- _ =>
      destruct (Z.compare_spec a b); try lia; subst
  | |- context [Pos.compare ?a ?b] =>
      destruct (Pos.compare_spec a b); try lia; subst
  | H : context [Pos.compare ?a ?b] |- _ =>
      destruct (Pos.compare_spec a b); try lia; subst
  end.

(** Case analysis on the operands of a comparison. *)
Ltac float_cases :=
  unfold lt, gt, le, SFltb, SFleb, SFeqb, SFcompare in *;
  repeat match goal with
  | x : spec_float |- _ => destruct x
  | x : double |- _ => destruct x
  | s : bool |- _ => destruct s
  end;
  simpl in *; rewrite ?compare_cont_Eq in *;
  try congruence; try discriminate;
  compare_cases; simpl in *; try congruence; try lia.

Lemma lt_irrefl x : lt x x = false.
Proof. float_cases. Qed.

Lemma lt_trans x y z : lt x y = true -> lt y z = true -> lt x z = true.
Proof. intros Hxy Hyz. float_cases. Qed.

Lemma lt_incomparable_trans x y z :
  is_nan x = false -> is_nan y = false -> is_nan z = false ->
  lt x y = false -> lt y x = false -> lt y z = false -> lt z y = false ->
  lt x z = false /\ lt z x = false.
Proof. intros Hx Hy Hz Hxy Hyx Hyz Hzy. split; float_cases. Qed.

Lemma le_of_not_gt x y :
  is_nan x = false -> is_nan y = false -> gt x y = false -> le x y = true.
Proof. intros Hx Hy Hgt. float_cases. Qed.

Lemma le_abs_nonneg x : le zero x = true -> le (abs x) x = true.
Proof. intros Hx. unfold abs, SFabs, zero in *. float_cases. Qed.

Lemma abs_opp x : abs (opp x) = abs x.
Proof. destruct x; reflexivity. Qed.

Lemma le_zero_not_nan x : le zero x = true -> is_nan x = false.
Proof. destruct x; cbv; intros; congruence. Qed.

(** [round_magnitude] gives a nearest integer. *)
Lemma round_magnitude_nearest m e :
  nearest_integer (round_magnitude m e) m e.
Proof.
  destruct e as [|p|p]; unfold nearest_integer, round_magnitude.
  { rewrite Z.pow_0_r. lia. }
  { reflexivity. }
  assert (Hpow : 2 ^ Zpos p = 2 * 2 ^ (Zpos p - 1)).
  { rewrite <- Z.pow_succ_r by lia. f_equal. lia. }
  assert (Hpos : 0 < 2 ^ (Zpos p - 1)) by (apply Z.pow_pos_nonneg; lia).
  set (h := 2 ^ (Zpos p - 1)) in *. rewrite Hpow.
  pose proof (Z.div_mod (Zpos m + h) (2 * h) ltac:(lia)) as Hdiv.
  pose proof (Z.mod_pos_bound (Zpos m + h) (2 * h) ltac:(lia)) as Hmod.
  set (q := (Zpos m + h) / (2 * h)) in *.
  set (r := (Zpos m + h) mod (2 * h)) in *.
  lia.
Qed.

(** ** Status mapping *)

(** C2, as stated: the engine's unknown status does not map to abnormal. *)
Lemma status_mapping_differs_from_spec :
  ~ (forall status has_objective,
       ToMPSolverResponseStatus status has_objective
       = spec_status_mapping status).
Proof.
  intros Hclaim. specialize (Hclaim UNKNOWN false). discriminate Hclaim.
Qed.

(** C2, amended: optimal, infeasible, model-invalid and feasible map to
    themselves, the engine's unknown status maps to not-solved, and a status
    maps to abnormal exactly when it is none of these five. *)
Theorem ToMPSolverResponseStatus_table :
  forall has_objective,
    ToMPSolverResponseStatus OPTIMAL has_objective = MPSOLVER_OPTIMAL /\
    ToMPSolverResponseStatus INFEASIBLE has_objective = MPSOLVER_INFEASIBLE /\
    ToMPSolverResponseStatus MODEL_INVALID has_objective
      = MPSOLVER_MODEL_INVALID /\
    ToMPSolverResponseStatus FEASIBLE has_objective = MPSOLVER_FEASIBLE /\
    ToMPSolverResponseStatus UNKNOWN has_objective = MPSOLVER_NOT_SOLVED /\
    (forall s,
       ToMPSolverResponseStatus s has_objective = MPSOLVER_ABNORMAL
       <-> exists raw, s = CpSolverStatus_unrecognized raw).
Proof.
  intros has_objective.
  do 5 (split; [reflexivity|]).
  intros s. split.
  - destruct s; simpl; intros Heq; try discriminate Heq. eauto.
  - intros [raw ->]. reflexivity.
Qed.

(** ** Solver parameters *)

Section Parameters.

Context `{!Collaborators} `{!StdSort}.

Lemma merge_solver_specific_parameters_decode blob params :
  merge_solver_specific_parameters blob params
  = match decode_parameters blob params with
    | Some params' => OkValue params'
    | None =>
        InvalidArgumentError
          (if kProtoLiteSatParameters
           then "solver_specific_parameters is not a valid binary stream of the "
                ++ "SatParameters proto"
           else "solver_specific_parameters is not a valid textual representation "
                ++ "of the SatParameters proto")
    end.
Proof.
  unfold merge_solver_specific_parameters, decode_parameters.
  destruct kProtoLiteSatParameters; reflexivity.
Qed.

Lemma solve_parameters_undecodable request blob :
  solver_specific_parameters request = Some blob ->
  decode_parameters blob (initial_parameters request) = None ->
  exists msg,
    solve_parameters request
    = ErrorStatus {| code := kInvalidArgument; message := msg |}.
Proof.
  intros Hblob Hdecode. unfold solve_parameters.
  rewrite Hblob, merge_solver_specific_parameters_decode.
  fold (initial_parameters request). rewrite Hdecode.
  eexists. reflexivity.
Qed.

(** C4: a request whose parameter blob does not decode in the encoding of the
    build flavour gets an error result of code invalid-argument, and no
    response. *)
Theorem undecodable_parameters_error_result request blob :
  solver_specific_parameters request = Some blob ->
  decode_parameters blob (initial_parameters request) = None ->
  (exists msg,
     SatSolveProto request
     = Some (ErrorStatus {| code := kInvalidArgument; message := msg |}))
  /\ (forall response, SatSolveProto request <> Some (OkValue response)).
Proof.
  intros Hblob Hdecode.
  destruct (solve_parameters_undecodable request blob Hblob Hdecode)
    as [msg Hmsg].
  unfold SatSolveProto. rewrite Hmsg. split.
  - exists msg. reflexivity.
  - intros response Heq. discriminate Heq.
Qed.

(** What [solve_parameters] returns when the blob, if any, decodes. *)
Lemma solve_parameters_ok request params :
  solve_parameters request = OkValue params ->
  exists merged,
    match solver_specific_parameters request with
    | Some blob =>
        decode_parameters blob (initial_parameters request) = Some merged
    | None => merged = initial_parameters request
    end
    /\ params = match solver_time_limit_seconds request with
                | Some limit => set_max_time_in_seconds merged limit
                | None => merged
                end.
Proof.
  unfold solve_parameters. fold (initial_parameters request).
  destruct (solver_specific_parameters request) as [blob|].
  - rewrite merge_solver_specific_parameters_decode.
    destruct (decode_parameters blob (initial_parameters request))
      as [merged|]; [|discriminate].
    intros Hparams. exists merged. split; [reflexivity|].
    destruct (solver_time_limit_seconds request); congruence.
  - intros Hparams. exists (initial_parameters request).
    split; [reflexivity|].
    destruct (solver_time_limit_seconds request); congruence.
Qed.

End Parameters.

Lemma undecodable_parameters_error_result_witness :
  let C := stub_collaborators stub_decode stub_validate no_detection
             silent_engine in
  let request := with_parameters (maximize_request 0 10) "max_time: soon" in
  (exists msg,
     SatSolveProto request
     = Some (ErrorStatus {| code := kInvalidArgument; message := msg |}))
  /\ (forall response, SatSolveProto request <> Some (OkValue response)).
Proof.
  intros C request.
  apply (undecodable_parameters_error_result request "max_time: soon");
    reflexivity.
Defined.

(** C10: the time limit of the request is applied after the blob is merged,
    the verbose flag before. For a request with a time limit the maximal
    solve time of the effective parameters is that limit; the search-progress
    flag of the effective parameters is the one the decoder leaves, having been
    handed parameters that hold the flag of the request; and a decoder can
    leave a flag that differs from the request's. *)
Theorem time_limit_after_merge_verbose_flag_before :
  (forall (C : Collaborators) request params limit,
     solve_parameters request = OkValue params ->
     solver_time_limit_seconds request = Some limit ->
     max_time_in_seconds params = limit)
  /\ (forall (C : Collaborators) request params,
        solve_parameters request = OkValue params ->
        match solver_specific_parameters request with
        | Some blob =>
            exists merged,
              decode_parameters blob
                (set_log_search_progress SatParameters_default
                   (enable_internal_solver_output request)) = Some merged
              /\ log_search_progress params = log_search_progress merged
        | None =>
            log_search_progress params = enable_internal_solver_output request
        end)
  /\ (exists (C : Collaborators) request params,
        solve_parameters request = OkValue params
        /\ log_search_progress params
           <> enable_internal_solver_output request).
Proof.
  split; [|split].
  - intros C request params limit Hparams Hlimit.
    destruct (solve_parameters_ok request params Hparams)
      as (merged & _ & ->).
    rewrite Hlimit. reflexivity.
  - intros C request params Hparams.
    destruct (solve_parameters_ok request params Hparams)
      as (merged & Hmerged & ->).
    destruct (solver_specific_parameters request) as [blob|].
    + exists merged. split; [exact Hmerged|].
      destruct (solver_time_limit_seconds request); reflexivity.
    + subst merged.
      destruct (solver_time_limit_seconds request); reflexivity.
  - exists (stub_collaborators stub_decode stub_validate no_detection
              silent_engine).
    exists (with_parameters (maximize_request 0 10)
              "log_search_progress: true").
    eexists. split; [reflexivity|]. discriminate.
Qed.

Lemma time_limit_after_merge_verbose_flag_before_witness :
  let C := stub_collaborators stub_decode stub_validate no_detection
             silent_engine in
  let request :=
    with_time_limit
      (with_parameters (maximize_request 0 10) "max_time_in_seconds: 5")
      (of_Z 60) in
  exists params,
    solve_parameters request = OkValue params
    /\ max_time_in_seconds params = of_Z 60.
Proof.
  intros C request. eexists. split; [reflexivity|].
  apply (proj1 time_limit_after_merge_verbose_flag_before C request _
           (of_Z 60)); reflexivity.
Defined.


(** ** Early exits *)

Section EarlyExits.

Context `{!Collaborators} `{!StdSort}.

(** The run up to parameter validation: once the parameters are decoded and
    the model is validated, [SatSolveProto] validates the parameters and goes
    on with [presolve_and_solve]. *)
Lemma SatSolveProto_validated request params request' response' :
  solve_parameters request = OkValue params ->
  ExtractValidMPModelInPlaceOrPopulateResponseStatus request
    MPSolutionResponse_default = (true, request', response') ->
  MPModelProtoValidationBeforeConversion params (model request') = true ->
  SatSolveProto request
  = if empty (ValidateParameters params)
    then presolve_and_solve params request' (model request') response'
    else Some (OkValue (ModelInvalidResponse
                          ("Invalid CP-SAT parameters: "
                           ++ ValidateParameters params))).
Proof.
  intros Hparams Hextract Hextra. unfold SatSolveProto.
  rewrite Hparams, Hextract. simpl. rewrite Hextra. simpl.
  destruct (empty (ValidateParameters params)); reflexivity.
Qed.

(** C3, amended: when the decoded parameters violate the validator and the
    model passed both model validations, the solve returns normally, with a
    response of status model-invalid whose message is "Invalid CP-SAT
    parameters: " followed by the validator's message. The response is the
    same whatever bound integerization, presolve, scaling, conversion and the
    engine would do: none of them is consulted. *)
Theorem invalid_parameters_model_invalid_response
    request params request' response' :
  solve_parameters request = OkValue params ->
  ExtractValidMPModelInPlaceOrPopulateResponseStatus request
    MPSolutionResponse_default = (true, request', response') ->
  MPModelProtoValidationBeforeConversion params (model request') = true ->
  ValidateParameters params <> "" ->
  SatSolveProto request
  = Some (OkValue
            {| status := MPSOLVER_MODEL_INVALID;
               status_str :=
                 "Invalid CP-SAT parameters: " ++ ValidateParameters params;
               response_objective_value := zero;
               best_objective_bound := zero;
               response_variable_value := [];
               additional_solutions := [];
               solve_info := {| solve_wall_time_seconds := zero;
                                solve_user_time_seconds := zero |} |}).
Proof.
  intros Hparams Hextract Hextra Herror.
  rewrite (SatSolveProto_validated _ _ _ _ Hparams Hextract Hextra).
  destruct (ValidateParameters params) as [|c error]; [congruence|].
  reflexivity.
Qed.

Lemma presolve_and_solve_empty_domain params request mp_model response cause :
  empty_domain_detected params mp_model cause ->
  presolve_and_solve params request mp_model response
  = Some (OkValue (InfeasibleResponse cause)).
Proof.
  intros [m Hfirst|m1 m2 fp vs m3 m4 Hfirst Hpresolve Hauto Hdetect Hsecond];
    unfold presolve_and_solve; rewrite Hfirst; simpl.
  - reflexivity.
  - unfold presolve_outcome in Hpresolve.
    assert (Hscale :
      scale_and_solve params request m2 fp response
      = Some (OkValue (InfeasibleResponse
                         "A detected integer variable has an empty domain"))).
    { unfold scale_and_solve. rewrite Hauto, Hdetect, Hsecond. reflexivity. }
    destruct (negb (enumerate_all_solutions params)
              && (0 <? mip_presolve_level params)).
    + rewrite Hpresolve. exact Hscale.
    + injection Hpresolve as <- <-. exact Hscale.
Qed.

(** C5: when bound integerization finds an integer variable with an empty
    domain, before presolve or after the detection of implied integers, the
    solve returns a response of status infeasible whose message names the
    empty domain. *)
Theorem empty_integer_domain_infeasible
    request params request' response' cause :
  solve_parameters request = OkValue params ->
  ExtractValidMPModelInPlaceOrPopulateResponseStatus request
    MPSolutionResponse_default = (true, request', response') ->
  MPModelProtoValidationBeforeConversion params (model request') = true ->
  ValidateParameters params = "" ->
  empty_domain_detected params (model request') cause ->
  SatSolveProto request
  = Some (OkValue
            {| status := MPSOLVER_INFEASIBLE;
               status_str := cause;
               response_objective_value := zero;
               best_objective_bound := zero;
               response_variable_value := [];
               additional_solutions := [];
               solve_info := {| solve_wall_time_seconds := zero;
                                solve_user_time_seconds := zero |} |})
  /\ (cause = "An integer variable has an empty domain"
      \/ cause = "A detected integer variable has an empty domain").
Proof.
  intros Hparams Hextract Hextra Hvalid Hempty.
  rewrite (SatSolveProto_validated _ _ _ _ Hparams Hextract Hextra).
  rewrite Hvalid. simpl.
  rewrite (presolve_and_solve_empty_domain _ _ _ _ _ Hempty).
  split; [reflexivity|].
  destruct Hempty; auto.
Qed.

End EarlyExits.

(** C3, as stated: parameters out of range give a response, not an error
    result. The request carries a negative [mip_max_bound]. *)
Lemma invalid_parameters_not_an_error_result :
  let C := stub_collaborators stub_decode stub_validate no_detection
             silent_engine in
  let request := with_parameters (maximize_request 0 10) "mip_max_bound: -1" in
  exists params response,
    solve_parameters request = OkValue params
    /\ ValidateParameters params <> ""
    /\ SatSolveProto request = Some (OkValue response)
    /\ status response = MPSOLVER_MODEL_INVALID
    /\ (forall e, SatSolveProto request <> Some (ErrorStatus e)).
Proof.
  intros C request. eexists. eexists.
  split; [reflexivity|].
  split; [discriminate|].
  split; [reflexivity|].
  split; [reflexivity|].
  intros e. discriminate.
Qed.

Lemma invalid_parameters_model_invalid_response_witness :
  let C := stub_collaborators stub_decode stub_validate no_detection
             silent_engine in
  let request := with_parameters (maximize_request 0 10) "mip_max_bound: -1" in
  exists response,
    SatSolveProto request = Some (OkValue response)
    /\ status_str response
       = "Invalid CP-SAT parameters: parameter 'mip_max_bound' should be in [0,1e17]".
Proof.
  intros C request. eexists. split.
  - apply (invalid_parameters_model_invalid_response request
             (set_mip_max_bound stub_default_parameters (of_Z (-1)))
             request MPSolutionResponse_default);
      [reflexivity | reflexivity | reflexivity | discriminate].
  - reflexivity.
Defined.

Lemma empty_integer_domain_infeasible_witness :
  (let C := stub_collaborators stub_decode stub_validate no_detection
              silent_engine in
   exists response,
     SatSolveProto (maximize_request 5 3) = Some (OkValue response)
     /\ status response = MPSOLVER_INFEASIBLE)
  /\ (let C := stub_collaborators stub_decode stub_validate eager_detection
                 silent_engine in
      exists response,
        SatSolveProto (continuous_request 5 3) = Some (OkValue response)
        /\ status response = MPSOLVER_INFEASIBLE).
Proof.
  split; intros C; eexists.
  - split.
    + refine (proj1 (empty_integer_domain_infeasible (maximize_request 5 3)
                stub_default_parameters (maximize_request 5 3)
                MPSolutionResponse_default _ _ _ _ _ _)); try reflexivity.
      eapply empty_before_presolve. reflexivity.
    + reflexivity.
  - split.
    + refine (proj1 (empty_integer_domain_infeasible (continuous_request 5 3)
                stub_default_parameters (continuous_request 5 3)
                MPSolutionResponse_default _ _ _ _ _ _)); try reflexivity.
      eapply empty_after_detection; reflexivity.
    + reflexivity.
Defined.

(** ** Loops *)

Lemma for_up_add {S} (a b i : nat) (body : nat -> S -> option S) (s : S) :
  for_up (a + b) i body s
  = match for_up a i body s with
    | Some s' => for_up b (i + a) body s'
    | None => None
    end.
Proof.
  revert i s. induction a as [|a IH]; intros i s; simpl.
  - rewrite Nat.add_0_r. reflexivity.
  - destruct (body i s) as [s'|]; [|reflexivity].
    rewrite IH. replace (Datatypes.S i + a)%nat with (i + Datatypes.S a)%nat
      by lia.
    reflexivity.
Qed.

(** The loop at the indices [k + i, ...] of one body is the loop at the
    indices [i, ...] of a body that agrees with it up to the shift. *)
Lemma for_up_shift {S} (k c i : nat) (body body' : nat -> S -> option S) s :
  (forall j s, (i <= j < i + c)%nat -> body (k + j)%nat s = body' j s) ->
  for_up c (k + i) body s = for_up c i body' s.
Proof.
  revert i s. induction c as [|c IH]; intros i s Hagree; simpl.
  - reflexivity.
  - rewrite Hagree by lia. destruct (body' i s) as [s'|]; [|reflexivity].
    replace (Datatypes.S (k + i)) with (k + Datatypes.S i)%nat by lia.
    apply IH. intros j s0 Hj. apply Hagree. lia.
Qed.

(** ** Postsolve *)

Lemma for_down_recover (l extra : list Preprocessor) (g : ProblemSolution) :
  for_down (length l)
    (fun i g => preprocessor ← (l ++ extra) !! i;
                Some (RecoverSolution preprocessor g)) g
  = Some (fold_left (fun g p => RecoverSolution p g) (rev l) g).
Proof.
  revert extra g. induction l as [|p l IH] using rev_ind; intros extra g.
  - reflexivity.
  - rewrite length_app, Nat.add_comm. simpl.
    rewrite <- app_assoc.
    change ([p] ++ extra) with (p :: extra).
    rewrite (list_lookup_middle l _ p (length l) eq_refl). simpl.
    rewrite IH, rev_unit. reflexivity.
Qed.

Lemma for_up_unscale (sol : list Z) (vs : list double) (nc : nat) :
  forall (c i : nat) (done : list double),
    length done = i ->
    (i + c <= length sol)%nat -> (i + c <= length vs)%nat ->
    for_up c i
      (fun v g =>
         x ← sol !! v;
         scaling ← vs !! v;
         Some (set_primal_values g
                 (<[v := div (of_Z x) scaling]> (primal_values g))))
      {| primal_values := done ++ replicate c zero;
         dual_values := replicate nc zero |}
    = Some {| primal_values :=
                done ++ zip_with unscale (take c (drop i sol))
                          (take c (drop i vs));
              dual_values := replicate nc zero |}.
Proof.
  induction c as [|c IH]; intros i done Hlen Hsol Hvs.
  - simpl. reflexivity.
  - simpl.
    destruct (lookup_lt_is_Some_2 sol i ltac:(lia)) as [x Hx].
    destruct (lookup_lt_is_Some_2 vs i ltac:(lia)) as [s Hs].
    rewrite Hx, Hs. simpl.
    change (set_primal_values ?g ?l)
      with {| primal_values := l; dual_values := dual_values g |} at 2.
    cbn [dual_values].
    rewrite insert_app_r_alt by lia.
    replace (i - length done)%nat with O by lia. simpl.
    rewrite (cons_middle _ done), app_assoc.
    rewrite (IH (Datatypes.S i) (done ++ [div (of_Z x) s])).
    + rewrite (drop_S sol x i Hx), (drop_S vs s i Hs). simpl.
      rewrite <- app_assoc. reflexivity.
    + rewrite length_app. simpl. lia.
    + lia.
    + lia.
Qed.

(** C6: [post_solve] first divides the value of each of the
    [old_num_variables] engine variables by its scaling factor, then hands the
    solution to the recorded preprocessors from the last recorded to the first
    recorded, and returns the primal values it ends with, with the objective
    value of the engine. *)
Theorem post_solve_unscales_then_recovers_in_reverse
    var_scaling for_postsolve old_num_constraints old_num_variables
    cp_response :
  (old_num_variables <= length (solution cp_response))%nat ->
  (old_num_variables <= length var_scaling)%nat ->
  post_solve var_scaling for_postsolve old_num_constraints old_num_variables
    cp_response
  = Some
      {| objective_value := cp_objective_value cp_response;
         variable_value :=
           primal_values
             (fold_left (fun glop_solution preprocessor =>
                           RecoverSolution preprocessor glop_solution)
                (rev for_postsolve)
                {| primal_values :=
                     zip_with unscale
                       (take old_num_variables (solution cp_response))
                       (take old_num_variables var_scaling);
                   dual_values := replicate old_num_constraints zero |}) |}.
Proof.
  intros Hsol Hvs. unfold post_solve, ProblemSolution_new.
  cbn [primal_values]. rewrite length_replicate.
  pose proof (for_up_unscale (solution cp_response) var_scaling
                old_num_constraints old_num_variables 0 [] eq_refl Hsol Hvs)
    as Hloop.
  cbn [app drop] in Hloop. rewrite Hloop.
  cbn [mbind option_bind].
  pose proof (for_down_recover for_postsolve []) as Hrecover.
  rewrite app_nil_r in Hrecover. rewrite Hrecover. reflexivity.
Qed.

Lemma post_solve_unscales_then_recovers_in_reverse_witness :
  post_solve [of_Z 2] [shifted_columns (of_Z 1); removed_column (of_Z 5)]
    0 1
    {| cp_status := OPTIMAL;
       cp_objective_value := of_Z 8;
       cp_best_objective_bound := of_Z 8;
       solution := [8];
       cp_additional_solutions := [];
       wall_time := zero;
       user_time := zero |}
  = Some {| objective_value := of_Z 8;
            variable_value := [of_Z 5; of_Z 6] |}.
Proof.
  apply (post_solve_unscales_then_recovers_in_reverse
           [of_Z 2] [shifted_columns (of_Z 1); removed_column (of_Z 5)]
           0 1); simpl; lia.
Defined.

(** ** Hint *)

Lemma copy_hint_entry_ext params hint hint' var_scaling i j cp_model_hint :
  var_index hint !! i = var_index hint' !! j ->
  var_value hint !! i = var_value hint' !! j ->
  copy_hint_entry params hint var_scaling i cp_model_hint
  = copy_hint_entry params hint' var_scaling j cp_model_hint.
Proof.
  intros Hindex Hvalue. unfold copy_hint_entry.
  rewrite Hindex, Hvalue. reflexivity.
Qed.

Lemma copy_hint_entry_out_of_range params hint var_scaling i cp_model_hint var :
  var_index hint !! i = Some var ->
  Z.of_nat (length var_scaling) <= var < 2 ^ 31 ->
  copy_hint_entry params hint var_scaling i cp_model_hint
  = Some cp_model_hint.
Proof.
  intros Hindex Hrange. unfold copy_hint_entry. rewrite Hindex. simpl.
  unfold to_size_t. rewrite Z.mod_small by lia.
  destruct (Z.leb_spec (Z.of_nat (length var_scaling)) var); [reflexivity|lia].
Qed.

Lemma lookup_skip_middle {A} (l1 l2 : list A) (x : A) (j : nat) :
  (length l1 <= j)%nat ->
  (l1 ++ x :: l2) !! (1 + j)%nat = (l1 ++ l2) !! j.
Proof.
  intros Hj. rewrite !lookup_app_r by lia.
  replace (1 + j - length l1)%nat with (Datatypes.S (j - length l1)) by lia.
  reflexivity.
Qed.

(** C7: a hint entry whose variable index is at least the number of variables
    is dropped: the copy of the hint, defined or not, is the copy of the hint
    without this entry. *)
Theorem hint_entry_out_of_range_dropped
    params mp_model var_scaling cp_model
    vars1 var vars2 values1 value values2 :
  length vars1 = length values1 ->
  Z.of_nat (length var_scaling) <= var < 2 ^ 31 ->
  copy_and_scale_hint params
    (with_solution_hint mp_model
       {| var_index := vars1 ++ var :: vars2;
          var_value := values1 ++ value :: values2 |})
    var_scaling cp_model
  = copy_and_scale_hint params
      (with_solution_hint mp_model
         {| var_index := vars1 ++ vars2;
            var_value := values1 ++ values2 |})
      var_scaling cp_model.
Proof.
  intros Hlen Hrange. unfold copy_and_scale_hint, with_solution_hint.
  cbn [solution_hint var_index].
  set (hint := {| var_index := vars1 ++ var :: vars2;
                  var_value := values1 ++ value :: values2 |}).
  set (hint' := {| var_index := vars1 ++ vars2;
                   var_value := values1 ++ values2 |}).
  f_equal.
  rewrite !length_app. cbn [length].
  replace (length vars1 + Datatypes.S (length vars2))%nat
    with (length vars1 + (1 + length vars2))%nat by lia.
  rewrite !for_up_add.
  assert (Hprefix : forall h,
    for_up (length vars1) 0 (copy_hint_entry params hint var_scaling) h
    = for_up (length vars1) 0 (copy_hint_entry params hint' var_scaling) h).
  { intros h. apply (for_up_shift 0). intros j s Hj.
    apply copy_hint_entry_ext; simpl; rewrite !lookup_app_l by lia;
      reflexivity. }
  rewrite Hprefix.
  destruct (for_up (length vars1) 0
              (copy_hint_entry params hint' var_scaling)
              (cp_solution_hint cp_model)) as [h|]; [|reflexivity].
  cbn [for_up Nat.add].
  rewrite (copy_hint_entry_out_of_range params hint var_scaling
             (length vars1) h var).
  - apply (for_up_shift 1). intros j s Hj.
    apply copy_hint_entry_ext; simpl; apply lookup_skip_middle; lia.
  - simpl. apply list_lookup_middle. reflexivity.
  - exact Hrange.
Qed.

Lemma hint_entry_out_of_range_dropped_witness :
  copy_and_scale_hint stub_default_parameters
    (with_solution_hint (model (maximize_request 0 10))
       {| var_index := [0; 5; 0]; var_value := [of_Z 3; S754_nan; of_Z 4] |})
    [one] (stub_convert (model (maximize_request 0 10)))
  = copy_and_scale_hint stub_default_parameters
      (with_solution_hint (model (maximize_request 0 10))
         {| var_index := [0; 0]; var_value := [of_Z 3; of_Z 4] |})
      [one] (stub_convert (model (maximize_request 0 10))).
Proof.
  apply (hint_entry_out_of_range_dropped stub_default_parameters
           (model (maximize_request 0 10)) [one]
           (stub_convert (model (maximize_request 0 10)))
           [0] 5 [0] [of_Z 3] S754_nan [of_Z 4]).
  - reflexivity.
  - simpl. lia.
Defined.

(** [std::round] followed by the cast, on values that end in one half. *)
Example round_half_away_from_zero :
  to_int64 (round (div (of_Z 5) (of_Z 2))) = Some 3
  /\ to_int64 (round (div (of_Z (-5)) (of_Z 2))) = Some (-3)
  /\ to_int64 (round (div (of_Z 7) (of_Z 5))) = Some 1
  /\ to_int64 (round S754_nan) = None.
Proof. repeat split; reflexivity. Qed.

Lemma scaled_hint_value_bounded params hint_value scaling :
  is_nan (mul hint_value scaling) = false ->
  le zero (mip_max_bound params) = true ->
  le (abs (scaled_hint_value params hint_value scaling))
     (mip_max_bound params) = true.
Proof.
  intros Hnan Hbound. unfold scaled_hint_value.
  destruct (gt (abs (mul hint_value scaling)) (mip_max_bound params))
    eqn:Hexceeds.
  - destruct (gt (mul hint_value scaling) zero);
      rewrite ?abs_opp; apply le_abs_nonneg, Hbound.
  - apply le_of_not_gt.
    + destruct (mul hint_value scaling); [reflexivity..|discriminate|reflexivity].
    + apply le_zero_not_nan, Hbound.
    + exact Hexceeds.
Qed.

(** C8: the value stored for a retained hint entry is the hint value
    multiplied by the scaling factor of its variable, then replaced by
    [mip_max_bound] or its opposite, by the sign of the product, when the
    magnitude of the product exceeds [mip_max_bound], and left as it is
    otherwise, then rounded to a nearest integer and converted to [int64_t].
    With a bound that is not negative the magnitude of the capped value does
    not exceed the bound. *)
Theorem retained_hint_entry_scaled_capped_rounded
    params hint var_scaling i cp_model_hint var hint_value scaling :
  var_index hint !! i = Some var ->
  to_size_t var < Z.of_nat (length var_scaling) ->
  var_value hint !! i = Some hint_value ->
  get var_scaling var = Some scaling ->
  let product := mul hint_value scaling in
  let bound := mip_max_bound params in
  let capped := scaled_hint_value params hint_value scaling in
  copy_hint_entry params hint var_scaling i cp_model_hint
  = match to_int64 (round capped) with
    | Some rounded =>
        Some {| hint_vars := hint_vars cp_model_hint ++ [var];
                hint_values := hint_values cp_model_hint ++ [rounded] |}
    | None => None
    end
  /\ (gt (abs product) bound = true ->
      capped = if gt product zero then bound else opp bound)
  /\ (gt (abs product) bound = false -> capped = product)
  /\ (is_nan product = false -> le zero bound = true ->
      le (abs capped) bound = true)
  /\ (forall s m e,
        capped = S754_finite s m e ->
        exists n,
          nearest_integer n m e
          /\ round capped = binary_normalize prec emax (cond_Zopp s n) 0 s).
Proof.
  intros Hindex Hretained Hvalue Hscaling product bound capped.
  split; [|split; [|split; [|split]]].
  - unfold copy_hint_entry. rewrite Hindex. simpl.
    destruct (Z.leb_spec (Z.of_nat (length var_scaling)) (to_size_t var));
      [lia|].
    rewrite Hvalue, Hscaling. reflexivity.
  - intros Hexceeds. unfold capped, scaled_hint_value.
    fold product bound. rewrite Hexceeds. reflexivity.
  - intros Hexceeds. unfold capped, scaled_hint_value.
    fold product bound. rewrite Hexceeds. reflexivity.
  - apply scaled_hint_value_bounded.
  - intros s m e Hfinite. exists (round_magnitude m e).
    split; [apply round_magnitude_nearest|].
    rewrite Hfinite. reflexivity.
Qed.

Lemma retained_hint_entry_scaled_capped_rounded_witness :
  copy_hint_entry stub_default_parameters
    {| var_index := [0]; var_value := [of_Z (-30000000)] |}
    [one] 0 {| hint_vars := []; hint_values := [] |}
  = Some {| hint_vars := [0]; hint_values := [-10000000] |}.
Proof.
  exact (proj1 (retained_hint_entry_scaled_capped_rounded
                  stub_default_parameters
                  {| var_index := [0]; var_value := [of_Z (-30000000)] |}
                  [one] 0 {| hint_vars := []; hint_values := [] |}
                  0 (of_Z (-30000000)) one
                  eq_refl eq_refl eq_refl eq_refl)).
Defined.

(** ** Additional solutions *)

Lemma copy_additional_solution_duplicate
    cp_model post_solve cp_response response :
  copy_additional_solution cp_model post_solve cp_response
    (solution cp_response) response
  = Some response.
Proof.
  unfold copy_additional_solution.
  rewrite bool_decide_eq_true_2 by reflexivity. reflexivity.
Qed.

Lemma copy_additional_solution_other
    cp_model post_solve cp_response values response :
  values <> solution cp_response ->
  copy_additional_solution cp_model post_solve cp_response values response
  = match postsolved_additional cp_model post_solve values with
    | Some mp_solution => Some (add_additional_solutions response mp_solution)
    | None => None
    end.
Proof.
  intros Hother. unfold copy_additional_solution, postsolved_additional.
  rewrite bool_decide_eq_false_2 by exact Hother.
  destruct (additional_objective cp_model values) as [obj|]; reflexivity.
Qed.

Lemma for_each_copy_additional_solution cp_model post_solve cp_response :
  forall l response,
    for_each l (copy_additional_solution cp_model post_solve cp_response)
      response
    = match mapM (postsolved_additional cp_model post_solve)
              (filter (fun values => values <> solution cp_response) l) with
      | Some sols =>
          Some (set_additional_solutions response
                  (additional_solutions response ++ sols))
      | None => None
      end.
Proof.
  induction l as [|values l IH]; intros response.
  - simpl. rewrite app_nil_r. destruct response; reflexivity.
  - cbn [for_each].
    destruct (decide (values = solution cp_response)) as [->|Hother].
    + rewrite copy_additional_solution_duplicate.
      rewrite filter_cons_False by (intros Hne; apply Hne; reflexivity).
      apply IH.
    + rewrite copy_additional_solution_other by exact Hother.
      rewrite filter_cons_True by exact Hother.
      cbn [mapM].
      destruct (postsolved_additional cp_model post_solve values)
        as [mp_solution|]; [|reflexivity].
      cbn [mbind option_bind]. rewrite IH.
      destruct (mapM (postsolved_additional cp_model post_solve)
                  (filter (fun values => values <> solution cp_response) l))
        as [sols|]; [|reflexivity].
      simpl. rewrite <- app_assoc. reflexivity.
Qed.

(** On objective values that are numbers, both orders of
    [additional_solution_order] are strict weak orderings. *)
Lemma additional_solution_order_strict_weak is_maximize l :
  Forall (fun s => is_nan (objective_value s) = false) l ->
  strict_weak_order_on (additional_solution_order is_maximize) l.
Proof.
  intros Hnan. rewrite List.Forall_forall in Hnan.
  unfold strict_weak_order_on, additional_solution_order, gt.
  destruct is_maximize; repeat split; intros;
    eauto using lt_irrefl, lt_trans;
    eapply (lt_incomparable_trans _ (objective_value y)); eauto.
Qed.

Section ResponseConversion.

Context `{!StdSort}.

(** What [convert_response] returns when every post-solve it runs is
    defined and no objective value is NaN: the additional solutions of the
    response are the ones it held, followed by the post-solved additional
    solutions of the engine that differ from the primary one, in the order
    [std::sort] leaves them. *)
Lemma convert_response_defined
    request cp_model post_solve cp_response response sols :
  (cp_status cp_response = FEASIBLE \/ cp_status cp_response = OPTIMAL ->
   is_Some (post_solve cp_response)) ->
  mapM (postsolved_additional cp_model post_solve)
    (filter (fun values => values <> solution cp_response)
       (cp_additional_solutions cp_response)) = Some sols ->
  Forall (fun s => is_nan (objective_value s) = false)
    (additional_solutions response ++ sols) ->
  exists r,
    convert_response request cp_model post_solve cp_response response = Some r
    /\ Permutation (additional_solutions response ++ sols)
         (additional_solutions r)
    /\ sorted_by (additional_solution_order (maximize (model request)))
         (additional_solutions r).
Proof.
  intros Hprimary Hsols Hnan. unfold convert_response.
  set (response1 :=
         set_status
           (set_solve_info response
              {| solve_wall_time_seconds := wall_time cp_response;
                 solve_user_time_seconds := user_time cp_response |})
           (ToMPSolverResponseStatus (cp_status cp_response)
              (has_objective cp_model))).
  assert (Hfirst : exists response2,
    (if MPSolverResponseStatus_eqb (status response1) MPSOLVER_FEASIBLE
        || MPSolverResponseStatus_eqb (status response1) MPSOLVER_OPTIMAL
     then
       post_solved_solution ← post_solve cp_response;
       Some (set_primal response1 (cp_objective_value cp_response)
               (cp_best_objective_bound cp_response)
               (variable_value post_solved_solution))
     else Some response1) = Some response2
    /\ additional_solutions response2 = additional_solutions response).
  { destruct (MPSolverResponseStatus_eqb (status response1) MPSOLVER_FEASIBLE
              || MPSolverResponseStatus_eqb (status response1)
                   MPSOLVER_OPTIMAL) eqn:Hstatus.
    - destruct Hprimary as [s Hs].
      { subst response1. simpl in Hstatus.
        destruct (cp_status cp_response); simpl in Hstatus;
          try discriminate Hstatus; auto. }
      rewrite Hs. eexists. split; reflexivity.
    - eexists. split; reflexivity. }
  destruct Hfirst as (response2 & -> & Hkept).
  cbn [mbind option_bind].
  rewrite for_each_copy_additional_solution, Hsols, Hkept.
  cbn [mbind option_bind]. eexists. split; [reflexivity|].
  cbn [set_additional_solutions additional_solutions].
  pose proof (additional_solution_order_strict_weak
                (maximize (model request)) _ Hnan) as Hswo.
  split.
  - apply std_sort_permutation, Hswo.
  - apply std_sort_sorted, Hswo.
Qed.

(** C9: of the additional solutions of the engine, those whose values are
    the values of the primary solution are skipped, and every other one is
    post-solved and included: when every post-solve is defined and the
    recomputed objective values are numbers, the additional solutions of the
    response are, up to their order, the post-solved forms of the engine's
    additional solutions that differ from the primary one. *)
Theorem duplicates_of_primary_skipped_others_included
    request cp_model post_solve cp_response response sols :
  additional_solutions response = [] ->
  (cp_status cp_response = FEASIBLE \/ cp_status cp_response = OPTIMAL ->
   is_Some (post_solve cp_response)) ->
  mapM (postsolved_additional cp_model post_solve)
    (filter (fun values => values <> solution cp_response)
       (cp_additional_solutions cp_response)) = Some sols ->
  Forall (fun s => is_nan (objective_value s) = false) sols ->
  exists r,
    convert_response request cp_model post_solve cp_response response = Some r
    /\ Permutation sols (additional_solutions r).
Proof.
  intros Hempty Hprimary Hsols Hnan.
  destruct (convert_response_defined request cp_model post_solve cp_response
              response sols Hprimary Hsols) as (r & Hr & Hperm & _).
  - rewrite Hempty. exact Hnan.
  - exists r. split; [exact Hr|]. rewrite Hempty in Hperm. exact Hperm.
Qed.

(** After [request.Clear()] the request says "minimize": whatever the
    request said before, the additional solutions come out in ascending
    order of their objective values. *)
Lemma cleared_request_sorts_ascending
    request cp_model post_solve cp_response response sols :
  (cp_status cp_response = FEASIBLE \/ cp_status cp_response = OPTIMAL ->
   is_Some (post_solve cp_response)) ->
  mapM (postsolved_additional cp_model post_solve)
    (filter (fun values => values <> solution cp_response)
       (cp_additional_solutions cp_response)) = Some sols ->
  Forall (fun s => is_nan (objective_value s) = false)
    (additional_solutions response ++ sols) ->
  exists r,
    convert_response (MPModelRequest_Clear request) cp_model post_solve
      cp_response response = Some r
    /\ sorted_by (fun left right =>
                    lt (objective_value left) (objective_value right))
         (additional_solutions r).
Proof.
  intros Hprimary Hsols Hnan.
  destruct (convert_response_defined (MPModelRequest_Clear request) cp_model
              post_solve cp_response response sols Hprimary Hsols Hnan)
    as (r & Hr & _ & Hsorted).
  exists r. split; [exact Hr|exact Hsorted].
Qed.

(** A conforming [std::sort] on two elements out of order. *)
Lemma std_sort_swap {A} (comp : A -> A -> bool) (a b : A) :
  strict_weak_order_on comp [a; b] ->
  comp b a = true ->
  std_sort comp [a; b] = [b; a].
Proof.
  intros Hswo Hba.
  pose proof (std_sort_permutation A comp [a; b] Hswo) as Hperm.
  pose proof (std_sort_sorted A comp [a; b] Hswo) as Hsorted.
  apply Permutation_length_2_inv in Hperm as [Heq|Heq]; [|exact Heq].
  rewrite Heq in Hsorted. unfold sorted_by in Hsorted.
  apply StronglySorted_inv in Hsorted as [_ Hhead].
  apply Forall_inv in Hhead. congruence.
Qed.

End ResponseConversion.

Lemma duplicates_of_primary_skipped_others_included_witness :
  exists r,
    convert_response (MPModelRequest_Clear (maximize_request 0 10))
      (stub_convert (model (maximize_request 0 10)))
      (post_solve [one] [] 0 1)
      (ranking_engine (stub_convert (model (maximize_request 0 10)))
         stub_default_parameters)
      MPSolutionResponse_default
    = Some r
    /\ Permutation [solution_at 9; solution_at 7] (additional_solutions r).
Proof.
  apply (duplicates_of_primary_skipped_others_included
           (MPModelRequest_Clear (maximize_request 0 10))
           (stub_convert (model (maximize_request 0 10)))
           (post_solve [one] [] 0 1)
           (ranking_engine (stub_convert (model (maximize_request 0 10)))
              stub_default_parameters)
           MPSolutionResponse_default
           [solution_at 9; solution_at 7]).
  - reflexivity.
  - intros _. eexists. reflexivity.
  - reflexivity.
  - repeat constructor.
Defined.

(** ** Order of the additional solutions *)

Section ClearedRequest.

Context `{!Collaborators} `{!StdSort}.

(** X12: [convert_and_solve] reads the optimization direction in the cleared
    request: when the model converts, the hint copies and every post-solve is
    defined, the additional solutions of the response are in ascending order
    of their objective values, whatever [maximize] is in [request]. *)
Lemma convert_and_solve_sorts_ascending
    params request mp_model var_scaling for_postsolve response
    cp_model cp_model' sols :
  only_solve_ip params && negb (forallb is_integer (variable mp_model))
    = false ->
  ConvertMPModelProtoToCpModelProto params mp_model = Some cp_model ->
  length (variables cp_model) = length var_scaling ->
  length (variables cp_model) = length (variable mp_model) ->
  copy_and_scale_hint params mp_model var_scaling cp_model = Some cp_model' ->
  let post_solve :=
    post_solve var_scaling for_postsolve (length (constraint mp_model))
      (length (variable mp_model)) in
  let cp_response := SolveCpModel cp_model' params in
  (cp_status cp_response = FEASIBLE \/ cp_status cp_response = OPTIMAL ->
   is_Some (post_solve cp_response)) ->
  mapM (postsolved_additional cp_model' post_solve)
    (filter (fun values => values <> solution cp_response)
       (cp_additional_solutions cp_response)) = Some sols ->
  Forall (fun s => is_nan (objective_value s) = false)
    (additional_solutions response ++ sols) ->
  exists r,
    convert_and_solve params request mp_model var_scaling for_postsolve
      response = Some (OkValue r)
    /\ Permutation (additional_solutions response ++ sols)
         (additional_solutions r)
    /\ sorted_by (fun left right =>
                    lt (objective_value left) (objective_value right))
         (additional_solutions r).
Proof.
  intros Hip Hconvert Hscaling Hvariables Hhint post_solve cp_response
    Hprimary Hsols Hnan.
  destruct (convert_response_defined (MPModelRequest_Clear request) cp_model'
              post_solve cp_response response sols Hprimary Hsols Hnan)
    as (r & Hr & Hperm & Hsorted).
  exists r. split; [|split; [exact Hperm|exact Hsorted]].
  unfold convert_and_solve. rewrite Hip, Hconvert.
  rewrite (proj2 (Nat.eqb_eq _ _) Hscaling).
  rewrite (proj2 (Nat.eqb_eq _ _) Hvariables). simpl.
  rewrite Hhint. simpl.
  fold post_solve cp_response. rewrite Hr. reflexivity.
Qed.

End ClearedRequest.

(** A sort that meets [StdSort] and exchanges two solutions of equal
    objective value: the interface of [std::sort] does not make the order of
    ties the order of the engine. *)
Example conforming_sort_not_stable :
  let first := {| objective_value := of_Z 7; variable_value := [of_Z 7; zero] |} in
  let second := {| objective_value := of_Z 7; variable_value := [zero; of_Z 7] |} in
  std_sort (additional_solution_order false) [first; second] = [second; first].
Proof. reflexivity. Qed.

(** C1 at a maximization request: the engine reports the optimum 10 and the
    additional solutions 10, 9 and 7; the response lists the objective values
    7 and 9 in ascending order, with every conforming [std::sort]. The request
    is cleared before its [maximize] field is read, so the comparator is the
    one of a minimization. *)
Theorem maximize_request_additional_solutions_ascending :
  forall (S : StdSort),
    let C := stub_collaborators stub_decode stub_validate no_detection
               ranking_engine in
    maximize (model (maximize_request 0 10)) = true
    /\ SatSolveProto (maximize_request 0 10)
       = Some (OkValue
                 {| status := MPSOLVER_OPTIMAL;
                    status_str := "";
                    response_objective_value := of_Z 10;
                    best_objective_bound := of_Z 10;
                    response_variable_value := [of_Z 10];
                    additional_solutions := [solution_at 7; solution_at 9];
                    solve_info :=
                      {| solve_wall_time_seconds := zero;
                         solve_user_time_seconds := zero |} |})
    /\ lt (objective_value (solution_at 7)) (objective_value (solution_at 9))
       = true.
Proof.
  intros S C. split; [reflexivity|]. split; [|reflexivity].
  rewrite <- (std_sort_swap (additional_solution_order false)
                (solution_at 9) (solution_at 7)).
  - lazy. reflexivity.
  - apply additional_solution_order_strict_weak. repeat constructor.
  - reflexivity.
Qed.

(** * Further properties of the pipeline *)

(** ** Status conversions *)

(** X1: converting an engine status to a response status and back gives the
    engine status again exactly for unknown, model-invalid, infeasible and
    optimal; the statuses feasible and unrecognized come back as unknown. The
    other way round, a response status survives the round trip exactly when
    it is optimal, infeasible, model-invalid or not-solved. *)
Theorem status_round_trips :
  (forall s has_objective,
     FromMPSolverResponseStatus (ToMPSolverResponseStatus s has_objective) = s
     <-> (s = UNKNOWN \/ s = MODEL_INVALID \/ s = INFEASIBLE \/ s = OPTIMAL))
  /\ (forall s has_objective,
        (s = FEASIBLE \/ exists raw, s = CpSolverStatus_unrecognized raw) ->
        FromMPSolverResponseStatus (ToMPSolverResponseStatus s has_objective)
        = UNKNOWN)
  /\ (forall m has_objective,
        ToMPSolverResponseStatus (FromMPSolverResponseStatus m) has_objective
        = m
        <-> (m = MPSOLVER_OPTIMAL \/ m = MPSOLVER_INFEASIBLE
             \/ m = MPSOLVER_MODEL_INVALID \/ m = MPSOLVER_NOT_SOLVED)).
Proof.
  split; [|split].
  - intros s has_objective. split.
    + destruct s; simpl; intros Heq; try discriminate Heq; auto.
    + intros [-> | [-> | [-> | ->]]]; reflexivity.
  - intros s has_objective [-> | [raw ->]]; reflexivity.
  - intros m has_objective. split.
    + destruct m; simpl; intros Heq; try discriminate Heq; auto.
    + intros [-> | [-> | [-> | ->]]]; reflexivity.
Qed.

(** ** Exits of the pipeline *)

Section Exits.

Context `{!Collaborators} `{!StdSort}.

Lemma convert_and_solve_no_error
    params request mp_model var_scaling for_postsolve response e :
  convert_and_solve params request mp_model var_scaling for_postsolve response
  <> Some (ErrorStatus e).
Proof.
  unfold convert_and_solve.
  destruct (only_solve_ip params
            && negb (forallb is_integer (variable mp_model)));
    [discriminate|].
  destruct (ConvertMPModelProtoToCpModelProto params mp_model)
    as [cp_model|]; [|discriminate].
  destruct (negb (Nat.eqb (length (variables cp_model)) (length var_scaling))
            || negb (Nat.eqb (length (variables cp_model))
                       (length (variable mp_model))));
    [discriminate|].
  destruct (copy_and_scale_hint params mp_model var_scaling cp_model)
    as [cp_model'|]; [|discriminate].
  cbn [mbind option_bind].
  match goal with
  | |- context [convert_response ?a ?b ?c ?d ?f] =>
      destruct (convert_response a b c d f); discriminate
  end.
Qed.

Lemma scale_and_solve_no_error
    params request mp_model for_postsolve response e :
  scale_and_solve params request mp_model for_postsolve response
  <> Some (ErrorStatus e).
Proof.
  unfold scale_and_solve.
  destruct (mip_automatically_scale_variables params).
  - destruct (DetectImpliedIntegers (RemoveNearZeroTerms params mp_model))
      as [var_scaling m].
    destruct (MakeBoundsOfIntegerVariablesInteger params m) as [[] m'];
      cbn [negb]; [|discriminate].
    destruct (scale_continuous params m' var_scaling) as [[vs m'']|];
      [apply convert_and_solve_no_error|discriminate].
  - match goal with
    | |- context [scale_continuous ?a ?b ?c] =>
        destruct (scale_continuous a b c) as [[vs m'']|];
          [apply convert_and_solve_no_error|discriminate]
    end.
Qed.

Lemma presolve_and_solve_no_error params request mp_model response e :
  presolve_and_solve params request mp_model response
  <> Some (ErrorStatus e).
Proof.
  unfold presolve_and_solve.
  destruct (MakeBoundsOfIntegerVariablesInteger params mp_model) as [[] m];
    cbn [negb]; [|discriminate].
  destruct (negb (enumerate_all_solutions params)
            && (0 <? mip_presolve_level params)).
  - destruct (ApplyMipPresolveSteps (RemoveNearZeroTerms params m))
      as [[presolve_status m'] for_postsolve].
    destruct presolve_status;
      try discriminate; apply scale_and_solve_no_error.
  - apply scale_and_solve_no_error.
Qed.

(** [SatSolveProto] returns an error status exactly when the decoding of
    the parameters does. *)
Lemma SatSolveProto_error_iff request e :
  SatSolveProto request = Some (ErrorStatus e)
  <-> solve_parameters request = ErrorStatus e.
Proof.
  unfold SatSolveProto.
  destruct (solve_parameters request) as [params|e'].
  - split; [|discriminate]. intros Herror. exfalso. revert Herror.
    destruct (ExtractValidMPModelInPlaceOrPopulateResponseStatus request
                MPSolutionResponse_default) as [[[] request'] response'];
      cbn [negb]; [|discriminate].
    destruct (MPModelProtoValidationBeforeConversion params
                (model request')); cbn [negb]; [|discriminate].
    destruct (empty (ValidateParameters params)); cbn [negb];
      [|discriminate].
    apply presolve_and_solve_no_error.
  - split; congruence.
Qed.

(** X2: the only error result of [SatSolveProto] is the one of a parameter
    blob that does not decode: the solve returns an error status exactly when
    the decoding of the parameters does, it is then the same status, of code
    invalid-argument, and the request carries a blob the decoder of the build
    flavour refuses. Every other failure is reported in a response. *)
Theorem error_result_only_for_undecodable_parameters :
  forall request e,
    (SatSolveProto request = Some (ErrorStatus e)
     <-> solve_parameters request = ErrorStatus e)
    /\ (SatSolveProto request = Some (ErrorStatus e) ->
        code e = kInvalidArgument
        /\ exists blob,
             solver_specific_parameters request = Some blob
             /\ decode_parameters blob (initial_parameters request) = None).
Proof.
  intros request e.
  split; [apply SatSolveProto_error_iff|].
  intros Herror. apply SatSolveProto_error_iff in Herror. revert Herror.
  unfold solve_parameters. fold (initial_parameters request).
  destruct (solver_specific_parameters request) as [blob|].
  - rewrite merge_solver_specific_parameters_decode.
    destruct (decode_parameters blob (initial_parameters request))
      as [merged|] eqn:Hdecode.
    + destruct (solver_time_limit_seconds request); discriminate.
    + intros Herror. injection Herror as <-. split; [reflexivity|].
      exists blob. split; [reflexivity|exact Hdecode].
  - destruct (solver_time_limit_seconds request); discriminate.
Qed.


(** X4: when all solutions are to be enumerated, or the presolve level is
    not positive, the MIP presolve is not applied: the solve is the same with
    any other presolve. *)
Theorem presolve_skipped params request mp_model response presolve :
  enumerate_all_solutions params = true \/ mip_presolve_level params <= 0 ->
  @presolve_and_solve (with_presolve _ presolve) _ params request mp_model
    response
  = presolve_and_solve params request mp_model response.
Proof.
  intros Hskip. unfold presolve_and_solve.
  assert (Hcond : negb (enumerate_all_solutions params)
                  && (0 <? mip_presolve_level params) = false).
  { destruct Hskip as [->|Hlevel]; [reflexivity|].
    destruct (Z.ltb_spec 0 (mip_presolve_level params)); [lia|].
    apply andb_false_r. }
  cbn [MakeBoundsOfIntegerVariablesInteger with_presolve].
  destruct (MakeBoundsOfIntegerVariablesInteger params mp_model) as [ok m].
  rewrite Hcond. reflexivity.
Qed.

(** X5: with [only_solve_ip] set, a model that still holds a variable not
    marked integer once scaling is done is refused with a response of status
    model-invalid that carries no solution, whatever the conversion and the
    engine would give. *)
Theorem only_solve_ip_refuses_continuous_variables
    params request mp_model var_scaling for_postsolve response v :
  only_solve_ip params = true ->
  In v (variable mp_model) ->
  is_integer v = false ->
  exists r,
    convert_and_solve params request mp_model var_scaling for_postsolve
      response = Some (OkValue r)
    /\ status r = MPSOLVER_MODEL_INVALID
    /\ additional_solutions r = [] /\ response_variable_value r = [].
Proof.
  intros Hflag Hin Hcontinuous. unfold convert_and_solve. rewrite Hflag.
  assert (Hsome : forallb is_integer (variable mp_model) = false).
  { apply not_true_is_false. intros Hall.
    rewrite forallb_forall in Hall. rewrite (Hall v Hin) in Hcontinuous.
    discriminate. }
  rewrite Hsome. cbn [negb andb]. eexists. repeat split; reflexivity.
Qed.

End Exits.


Lemma presolve_skipped_witness :
  let C := stub_collaborators stub_decode stub_validate no_detection
             ranking_engine in
  @presolve_and_solve
    (with_presolve C (stopping_presolve PRIMAL_INFEASIBLE)) _
    enumerating_parameters (maximize_request 0 10)
    (model (maximize_request 0 10)) MPSolutionResponse_default
  = presolve_and_solve enumerating_parameters (maximize_request 0 10)
      (model (maximize_request 0 10)) MPSolutionResponse_default.
Proof.
  intros C.
  apply (presolve_skipped enumerating_parameters (maximize_request 0 10)
           (model (maximize_request 0 10)) MPSolutionResponse_default
           (stopping_presolve PRIMAL_INFEASIBLE)).
  left. reflexivity.
Defined.

Lemma only_solve_ip_refuses_continuous_variables_witness :
  let C := stub_collaborators stub_decode stub_validate no_detection
             ranking_engine in
  exists r,
    convert_and_solve only_ip_parameters (continuous_request 0 10)
      (model (continuous_request 0 10)) [one] [] MPSolutionResponse_default
    = Some (OkValue r)
    /\ status r = MPSOLVER_MODEL_INVALID
    /\ additional_solutions r = [] /\ response_variable_value r = [].
Proof.
  intros C.
  eapply (only_solve_ip_refuses_continuous_variables only_ip_parameters
            (continuous_request 0 10) (model (continuous_request 0 10))
            [one] [] MPSolutionResponse_default);
    [reflexivity | left; reflexivity | reflexivity].
Defined.

(** ** Scaling *)

Lemma for_up_multiply (other : list double) :
  forall (c i : nat) (done rest : list double),
    length done = i ->
    (c <= length rest)%nat -> (i + c <= length other)%nat ->
    for_up c i
      (fun i scaling =>
         a ← scaling !! i;
         b ← other !! i;
         Some (<[i := mul a b]> scaling))
      (done ++ rest)
    = Some (done ++ zip_with mul (take c rest) (drop i other)
              ++ drop c rest).
Proof.
  induction c as [|c IH]; intros i done rest Hdone Hrest Hother.
  - simpl. rewrite drop_0. reflexivity.
  - destruct rest as [|a rest]; [simpl in Hrest; lia|].
    destruct (lookup_lt_is_Some_2 other i ltac:(lia)) as [b Hb].
    cbn [for_up].
    rewrite (list_lookup_middle done rest a i (eq_sym Hdone)).
    rewrite Hb. cbn [mbind option_bind].
    rewrite insert_app_r_alt by lia.
    replace (i - length done)%nat with O by lia. cbn [insert list_insert].
    rewrite (cons_middle (mul a b) done), app_assoc.
    rewrite (IH (Datatypes.S i) (done ++ [mul a b]) rest).
    + rewrite (drop_S other b i Hb). cbn [take zip_with drop].
      rewrite <- app_assoc. reflexivity.
    + rewrite length_app. simpl. lia.
    + simpl in Hrest. lia.
    + lia.
Qed.

(** X6: the scaling factors are combined by multiplication, index by index:
    with at least as many other factors as scaling factors the result holds
    the products and has the length of the scaling vector; with fewer the
    loop reads past the end of the other factors and has no defined
    result. *)
Theorem multiply_scaling_elementwise var_scaling other_scaling :
  ((length var_scaling <= length other_scaling)%nat ->
   multiply_scaling var_scaling other_scaling
   = Some (zip_with mul var_scaling other_scaling))
  /\ ((length other_scaling < length var_scaling)%nat ->
      multiply_scaling var_scaling other_scaling = None)
  /\ (forall scaling,
        multiply_scaling var_scaling other_scaling = Some scaling ->
        length scaling = length var_scaling).
Proof.
  assert (Hdefined :
    (length var_scaling <= length other_scaling)%nat ->
    multiply_scaling var_scaling other_scaling
    = Some (zip_with mul var_scaling other_scaling)).
  { intros Hlen. unfold multiply_scaling.
    pose proof (for_up_multiply other_scaling (length var_scaling) 0 []
                  var_scaling eq_refl (Nat.le_refl _) Hlen) as Hloop.
    cbn [app] in Hloop. rewrite Hloop.
    rewrite firstn_all, drop_0, drop_all, app_nil_r. reflexivity. }
  assert (Hundefined :
    (length other_scaling < length var_scaling)%nat ->
    multiply_scaling var_scaling other_scaling = None).
  { intros Hlen. unfold multiply_scaling.
    replace (length var_scaling)
      with (length other_scaling
            + Datatypes.S (length var_scaling
                           - Datatypes.S (length other_scaling)))%nat
      by lia.
    rewrite for_up_add.
    pose proof (for_up_multiply other_scaling (length other_scaling) 0 []
                  var_scaling eq_refl ltac:(lia) ltac:(lia)) as Hloop.
    cbn [app] in Hloop. rewrite Hloop. cbn [for_up Nat.add].
    rewrite (lookup_ge_None_2 other_scaling (length other_scaling))
      by lia.
    match goal with
    | |- context [?l !! ?i ≫= _] => destruct (l !! i); reflexivity
    end. }
  split; [exact Hdefined|]. split; [exact Hundefined|].
  intros scaling Hscaling.
  destruct (Nat.le_gt_cases (length var_scaling) (length other_scaling))
    as [Hle|Hgt].
  - rewrite (Hdefined Hle) in Hscaling. injection Hscaling as <-.
    rewrite length_zip_with. lia.
  - rewrite (Hundefined Hgt) in Hscaling. discriminate.
Qed.

Section Scaling.

Context `{!Collaborators}.

(** X7: the uniform scaling of the continuous variables keeps the length of
    the scaling vector. With [mip_var_scaling] equal to one it changes neither
    the vector nor the model, and the scaling function is not consulted;
    otherwise the vector holds the products with the factors the scaling
    function returns for the model, and the model is the one it leaves. *)
Theorem scale_continuous_keeps_length
    params mp_model var_scaling var_scaling' mp_model' :
  scale_continuous params mp_model var_scaling
    = Some (var_scaling', mp_model') ->
  length var_scaling' = length var_scaling
  /\ (neq (mip_var_scaling params) one = false ->
      var_scaling' = var_scaling /\ mp_model' = mp_model)
  /\ (neq (mip_var_scaling params) one = true ->
      let scaled :=
        ScaleContinuousVariables (mip_var_scaling params)
          (if mip_scale_large_domain params then infinity
           else mip_max_bound params) mp_model in
      var_scaling' = zip_with mul var_scaling (fst scaled)
      /\ mp_model' = snd scaled).
Proof.
  unfold scale_continuous.
  destruct (neq (mip_var_scaling params) one).
  - destruct (ScaleContinuousVariables (mip_var_scaling params)
                (if mip_scale_large_domain params then infinity
                 else mip_max_bound params) mp_model)
      as [other_scaling m] eqn:Hscaled.
    destruct (multiply_scaling var_scaling other_scaling) as [scaling|]
      eqn:Hmultiply; [|discriminate].
    cbn [mbind option_bind]. intros Heq. injection Heq as <- <-.
    destruct (multiply_scaling_elementwise var_scaling other_scaling)
      as (Hdefined & Hundefined & Hlength).
    split; [apply Hlength, Hmultiply|]. split; [discriminate|].
    intros _. cbn [fst snd]. split; [|reflexivity].
    destruct (Nat.le_gt_cases (length var_scaling) (length other_scaling))
      as [Hle|Hgt].
    + rewrite (Hdefined Hle) in Hmultiply. congruence.
    + rewrite (Hundefined Hgt) in Hmultiply. discriminate.
  - intros Heq. injection Heq as <- <-.
    split; [reflexivity|]. split; [auto|discriminate].
Qed.

End Scaling.

Lemma scale_continuous_keeps_length_witness :
  let C := stub_collaborators stub_decode stub_validate no_detection
             silent_engine in
  length [of_Z 3] = length [of_Z 3]
  /\ [of_Z 3] = zip_with mul [of_Z 3] [one].
Proof.
  intros C.
  pose proof (scale_continuous_keeps_length doubling_parameters
                (model (continuous_request 0 10)) [of_Z 3]
                [of_Z 3] (model (continuous_request 0 10))
                eq_refl) as (Hlength & _ & Hproducts).
  split; [exact Hlength|].
  exact (proj1 (Hproducts eq_refl)).
Defined.

(** ** Indices of the copied hint *)

Lemma out_of_range_iff (n : nat) (v : Z) :
  Z.of_nat n < 2 ^ 31 -> - 2 ^ 31 <= v < 2 ^ 31 ->
  (Z.of_nat n <=? to_size_t v) = true <-> ~ valid_index n v.
Proof.
  intros Hn Hv. unfold to_size_t, valid_index.
  change (2 ^ 64) with 18446744073709551616.
  change (2 ^ 31) with 2147483648 in *.
  rewrite Z.leb_le.
  destruct (Z.lt_ge_cases v 0) as [Hneg|Hpos].
  - replace (v mod 18446744073709551616) with (v + 18446744073709551616).
    + lia.
    + apply (Z.mod_unique _ _ (-1)); lia.
  - rewrite Z.mod_small by lia. lia.
Qed.

Lemma for_up_copy_hint params var_scaling :
  Z.of_nat (length var_scaling) < 2 ^ 31 ->
  forall (rest_index pre_index : list Z) (values : list double)
         (h h' : CpHint),
    Forall (fun v => - 2 ^ 31 <= v < 2 ^ 31) rest_index ->
    for_up (length rest_index) (length pre_index)
      (copy_hint_entry params
         {| var_index := pre_index ++ rest_index; var_value := values |}
         var_scaling) h = Some h' ->
    hint_vars h'
    = hint_vars h ++ filter (valid_index (length var_scaling)) rest_index
    /\ length (hint_values h')
       = (length (hint_values h)
          + length (filter (valid_index (length var_scaling)) rest_index))%nat.
Proof.
  intros Hn. induction rest_index as [|v rest IH];
    intros pre_index values h h' Hint Hloop.
  - simpl in Hloop. injection Hloop as <-. simpl.
    rewrite app_nil_r. split; [reflexivity|lia].
  - apply Forall_cons in Hint as [Hv Hint].
    cbn [length for_up] in Hloop.
    unfold copy_hint_entry at 1 in Hloop. cbn [var_index var_value] in Hloop.
    rewrite (list_lookup_middle pre_index rest v _ eq_refl) in Hloop.
    cbn [mbind option_bind] in Hloop.
    pose proof (out_of_range_iff (length var_scaling) v Hn Hv) as Hrange.
    replace (pre_index ++ v :: rest) with ((pre_index ++ [v]) ++ rest)
      in Hloop by (rewrite <- app_assoc; reflexivity).
    replace (Datatypes.S (length pre_index)) with (length (pre_index ++ [v]))
      in Hloop by (rewrite length_app; simpl; lia).
    destruct (Z.of_nat (length var_scaling) <=? to_size_t v).
    + rewrite filter_cons_False by (apply Hrange; reflexivity).
      apply (IH _ _ _ _ Hint Hloop).
    + rewrite filter_cons_True
        by (destruct (decide (valid_index (length var_scaling) v)) as [Hin|Hout];
            [exact Hin | apply Hrange in Hout; discriminate]).
      destruct (values !! length pre_index) as [hint_value|];
        [|discriminate].
      cbn [mbind option_bind] in Hloop.
      destruct (get var_scaling v) as [scaling|]; [|discriminate].
      cbn [mbind option_bind] in Hloop.
      destruct (to_int64 (round (scaled_hint_value params hint_value scaling)))
        as [rounded|]; [|discriminate].
      cbn [mbind option_bind] in Hloop.
      destruct (IH _ _ _ _ Hint Hloop) as [Hvars Hvalues].
      cbn [hint_vars hint_values] in Hvars, Hvalues.
      rewrite Hvars, Hvalues, <- app_assoc, length_app. simpl.
      split; [reflexivity|lia].
Qed.

(** X8: when the copy of a hint is defined, the variables of the copied
    entries are the indices of the hint that name a variable, in the order of
    the hint, behind the entries the model already had: an index that is
    negative or not below the number of scaling factors is left out. The
    copied values are as many as the copied variables, and the copy changes
    nothing but the hint. *)
Theorem copied_hint_holds_the_valid_indices
    params mp_model var_scaling cp_model cp_model' hint :
  solution_hint mp_model = Some hint ->
  Z.of_nat (length var_scaling) < 2 ^ 31 ->
  Forall (fun v => - 2 ^ 31 <= v < 2 ^ 31) (var_index hint) ->
  copy_and_scale_hint params mp_model var_scaling cp_model = Some cp_model' ->
  hint_vars (cp_solution_hint cp_model')
  = hint_vars (cp_solution_hint cp_model)
    ++ filter (valid_index (length var_scaling)) (var_index hint)
  /\ length (hint_values (cp_solution_hint cp_model'))
     = (length (hint_values (cp_solution_hint cp_model))
        + length (filter (valid_index (length var_scaling))
                    (var_index hint)))%nat
  /\ variables cp_model' = variables cp_model
  /\ objective cp_model' = objective cp_model
  /\ floating_point_objective cp_model' = floating_point_objective cp_model.
Proof.
  intros Hhint Hn Hint. unfold copy_and_scale_hint. rewrite Hhint.
  destruct (for_up (length (var_index hint)) 0
              (copy_hint_entry params hint var_scaling)
              (cp_solution_hint cp_model)) as [h|] eqn:Hloop; [|discriminate].
  cbn [mbind option_bind]. intros Heq. injection Heq as <-.
  destruct hint as [indices values]. cbn [var_index] in *.
  destruct (for_up_copy_hint params var_scaling Hn indices [] values
              (cp_solution_hint cp_model) h Hint Hloop) as [Hvars Hvalues].
  cbn [set_cp_solution_hint cp_solution_hint variables objective
       floating_point_objective].
  repeat split; assumption.
Qed.

Lemma copied_hint_holds_the_valid_indices_witness :
  exists cp_model',
    copy_and_scale_hint stub_default_parameters
      (with_solution_hint (model (maximize_request 0 10))
         {| var_index := [0; 5; -1; 0];
            var_value := [of_Z 3; S754_nan; S754_nan; of_Z 4] |})
      [one] (stub_convert (model (maximize_request 0 10)))
    = Some cp_model'
    /\ hint_vars (cp_solution_hint cp_model') = [0; 0].
Proof.
  eexists. split; [reflexivity|].
  apply (proj1 (copied_hint_holds_the_valid_indices stub_default_parameters
                  (with_solution_hint (model (maximize_request 0 10))
                     {| var_index := [0; 5; -1; 0];
                        var_value :=
                          [of_Z 3; S754_nan; S754_nan; of_Z 4] |})
                  [one] (stub_convert (model (maximize_request 0 10)))
                  _ _ eq_refl eq_refl
                  ltac:(repeat constructor; simpl; lia) eq_refl)).
Defined.

(** ** Definedness of the postsolve *)

Lemma for_up_fails_at {S} (c k i : nat) (body : nat -> S -> option S) s :
  (k < c)%nat ->
  (forall s', body (i + k)%nat s' = None) ->
  for_up c i body s = None.
Proof.
  revert k i s. induction c as [|c IH]; intros k i s Hk Hfail; [lia|].
  simpl. destruct k as [|k].
  - rewrite Nat.add_0_r in Hfail. rewrite Hfail. reflexivity.
  - destruct (body i s) as [s'|]; [|reflexivity].
    apply (IH k); [lia|]. intros s''.
    replace (Datatypes.S i + k)%nat with (i + Datatypes.S k)%nat by lia.
    apply Hfail.
Qed.

(** X9: [post_solve] has a defined result exactly when the solution of the
    engine and the scaling vector both hold at least [old_num_variables]
    entries, whatever the recorded presolve steps are: on a response without
    solution it reads past the end of the solution. *)
Theorem post_solve_defined_iff
    var_scaling for_postsolve old_num_constraints old_num_variables
    cp_response :
  is_Some (post_solve var_scaling for_postsolve old_num_constraints
             old_num_variables cp_response)
  <-> (old_num_variables <= length (solution cp_response))%nat
      /\ (old_num_variables <= length var_scaling)%nat.
Proof.
  split.
  - intros [s Hs].
    destruct (Nat.le_gt_cases old_num_variables
                (length (solution cp_response))) as [Hsol|Hsol];
      [destruct (Nat.le_gt_cases old_num_variables (length var_scaling))
         as [Hvs|Hvs]; [split; assumption|]|];
      exfalso; revert Hs; unfold post_solve, ProblemSolution_new;
      cbn [primal_values]; rewrite length_replicate.
    + rewrite (for_up_fails_at old_num_variables (length var_scaling) 0);
        [discriminate | exact Hvs |].
      intros g. cbn [Nat.add].
      rewrite (lookup_ge_None_2 var_scaling (length var_scaling)) by lia.
      destruct (solution cp_response !! length var_scaling); reflexivity.
    + rewrite (for_up_fails_at old_num_variables
                 (length (solution cp_response)) 0);
        [discriminate | exact Hsol |].
      intros g. cbn [Nat.add].
      rewrite (lookup_ge_None_2 (solution cp_response)) by lia.
      reflexivity.
  - intros [Hsol Hvs]. unfold post_solve, ProblemSolution_new.
    cbn [primal_values]. rewrite length_replicate.
    pose proof (for_up_unscale (solution cp_response) var_scaling
                  old_num_constraints old_num_variables 0 [] eq_refl Hsol Hvs)
      as Hloop.
    cbn [app drop] in Hloop. rewrite Hloop. cbn [mbind option_bind].
    pose proof (for_down_recover for_postsolve []) as Hrecover.
    rewrite app_nil_r in Hrecover. rewrite Hrecover.
    cbn [mbind option_bind]. eexists. reflexivity.
Qed.

(** ** Fields of the converted response *)

Section PrimaryFields.

Context `{!StdSort}.

(** X10: a converted response holds the mapped status of the engine and the
    wall and user times of the engine, and keeps the message it had. The
    objective value, the best bound and the variable values are those of the
    engine, the values post-solved, when the engine's status is feasible or
    optimal; for every other status they are left as they were: no solution is
    reported. The loop over the additional solutions and the sort change
    none of these fields. *)
Theorem convert_response_primary_fields
    request cp_model post_solve cp_response response r :
  convert_response request cp_model post_solve cp_response response = Some r ->
  status r
  = ToMPSolverResponseStatus (cp_status cp_response) (has_objective cp_model)
  /\ solve_info r
     = {| solve_wall_time_seconds := wall_time cp_response;
          solve_user_time_seconds := user_time cp_response |}
  /\ status_str r = status_str response
  /\ (cp_status cp_response = FEASIBLE \/ cp_status cp_response = OPTIMAL ->
      response_objective_value r = cp_objective_value cp_response
      /\ best_objective_bound r = cp_best_objective_bound cp_response
      /\ exists s,
           post_solve cp_response = Some s
           /\ response_variable_value r = variable_value s)
  /\ (~ (cp_status cp_response = FEASIBLE \/ cp_status cp_response = OPTIMAL) ->
      response_objective_value r = response_objective_value response
      /\ best_objective_bound r = best_objective_bound response
      /\ response_variable_value r = response_variable_value response).
Proof.
  unfold convert_response.
  set (response1 :=
         set_status
           (set_solve_info response
              {| solve_wall_time_seconds := wall_time cp_response;
                 solve_user_time_seconds := user_time cp_response |})
           (ToMPSolverResponseStatus (cp_status cp_response)
              (has_objective cp_model))).
  assert (Hstatus :
    MPSolverResponseStatus_eqb (status response1) MPSOLVER_FEASIBLE
    || MPSolverResponseStatus_eqb (status response1) MPSOLVER_OPTIMAL = true
    <-> (cp_status cp_response = FEASIBLE \/ cp_status cp_response = OPTIMAL)).
  { subst response1. cbn [status set_status].
    destruct (cp_status cp_response); simpl; split; intros Hcase;
      try discriminate Hcase; auto;
      destruct Hcase as [Hcase|Hcase]; discriminate Hcase. }
  destruct (MPSolverResponseStatus_eqb (status response1) MPSOLVER_FEASIBLE
            || MPSolverResponseStatus_eqb (status response1) MPSOLVER_OPTIMAL).
  - destruct (post_solve cp_response) as [s|] eqn:Hs; [|discriminate].
    cbn [mbind option_bind].
    rewrite for_each_copy_additional_solution.
    destruct (mapM _ _) as [sols|]; [|discriminate].
    cbn [mbind option_bind]. intros Heq. injection Heq as <-.
    do 3 (split; [reflexivity|]). split.
    + intros _. do 2 (split; [reflexivity|]).
      exists s. split; reflexivity.
    + intros Hnot. exfalso. apply Hnot, Hstatus. reflexivity.
  - cbn [mbind option_bind].
    rewrite for_each_copy_additional_solution.
    destruct (mapM _ _) as [sols|]; [|discriminate].
    cbn [mbind option_bind]. intros Heq. injection Heq as <-.
    do 3 (split; [reflexivity|]). split.
    + intros Hfeasible. apply Hstatus in Hfeasible. discriminate.
    + intros _. repeat split; reflexivity.
Qed.
End PrimaryFields.

Lemma convert_response_primary_fields_witness :
  exists r,
    convert_response (MPModelRequest_Clear (maximize_request 0 10))
      (stub_convert (model (maximize_request 0 10)))
      (post_solve [one] [] 0 1)
      (ranking_engine (stub_convert (model (maximize_request 0 10)))
         stub_default_parameters)
      MPSolutionResponse_default
    = Some r
    /\ status r = MPSOLVER_OPTIMAL
    /\ response_objective_value r = of_Z 10.
Proof.
  eexists. split; [reflexivity|].
  pose proof (convert_response_primary_fields
                (MPModelRequest_Clear (maximize_request 0 10))
                (stub_convert (model (maximize_request 0 10)))
                (post_solve [one] [] 0 1)
                (ranking_engine (stub_convert (model (maximize_request 0 10)))
                   stub_default_parameters)
                MPSolutionResponse_default _ eq_refl)
    as (Hstatus & _ & _ & Hfeasible & _).
  split; [exact Hstatus|].
  exact (proj1 (Hfeasible (or_intror eq_refl))).
Defined.

(** ** Recomputed objective *)

Lemma for_up_objective (values : list Z) :
  forall (vars pre_vars : list Z) (coeffs pre_coeffs : list double)
         (xs : list Z) (obj : double),
    length pre_vars = length pre_coeffs ->
    (length vars <= length coeffs)%nat ->
    mapM (get values) vars = Some xs ->
    for_up (length vars) (length pre_vars)
      (fun i obj =>
         var ← (pre_vars ++ vars) !! i;
         obj_coef ← (pre_coeffs ++ coeffs) !! i;
         x ← get values var;
         Some (add obj (mul (of_Z x) obj_coef)))
      obj
    = Some (fold_left add_term (zip xs coeffs) obj).
Proof.
  induction vars as [|var vars IH];
    intros pre_vars coeffs pre_coeffs xs obj Hpre Hlen Hxs.
  - simpl in Hxs. injection Hxs as <-. reflexivity.
  - destruct coeffs as [|coef coeffs]; [simpl in Hlen; lia|].
    cbn [mapM] in Hxs.
    destruct (get values var) as [x|] eqn:Hx; [|discriminate].
    cbn [mbind option_bind] in Hxs.
    destruct (mapM (get values) vars) as [xs'|] eqn:Hxs'; [|discriminate].
    cbn [mbind option_bind mret option_ret] in Hxs. injection Hxs as <-.
    cbn [length for_up].
    rewrite (list_lookup_middle pre_vars vars var _ eq_refl).
    rewrite (list_lookup_middle pre_coeffs coeffs coef _ Hpre).
    cbn [mbind option_bind]. rewrite Hx. cbn [mbind option_bind].
    replace (pre_vars ++ var :: vars) with ((pre_vars ++ [var]) ++ vars)
      by (rewrite <- app_assoc; reflexivity).
    replace (pre_coeffs ++ coef :: coeffs)
      with ((pre_coeffs ++ [coef]) ++ coeffs)
      by (rewrite <- app_assoc; reflexivity).
    replace (Datatypes.S (length pre_vars))
      with (length (pre_vars ++ [var]))
      by (rewrite length_app; simpl; lia).
    rewrite (IH (pre_vars ++ [var]) coeffs (pre_coeffs ++ [coef]) xs').
    + reflexivity.
    + rewrite !length_app. simpl. lia.
    + simpl in Hlen. lia.
    + reflexivity.
Qed.

(** X11: the objective value recomputed for an additional solution is the
    offset of the floating-point objective plus, term by term in the order of
    the objective, the value of the variable times its coefficient, and this
    sum times the scaling factor of the objective unless the factor is zero
    of either sign, which is taken as one. It is defined when every term has
    a coefficient and its variable a value in the solution. *)
Theorem additional_objective_sum cp_model values xs :
  (length (fo_vars (floating_point_objective cp_model))
   <= length (fo_coeffs (floating_point_objective cp_model)))%nat ->
  mapM (get values) (fo_vars (floating_point_objective cp_model)) = Some xs ->
  let sum :=
    fold_left add_term
      (zip xs (fo_coeffs (floating_point_objective cp_model)))
      (fo_offset (floating_point_objective cp_model)) in
  additional_objective cp_model values
  = Some (if neq (scaling_factor (objective cp_model)) zero
          then mul sum (scaling_factor (objective cp_model))
          else sum)
  /\ (scaling_factor (objective cp_model) = S754_zero false
      \/ scaling_factor (objective cp_model) = S754_zero true ->
      additional_objective cp_model values = Some sum).
Proof.
  intros Hlen Hxs sum.
  assert (Hobjective :
    additional_objective cp_model values
    = Some (if neq (scaling_factor (objective cp_model)) zero
            then mul sum (scaling_factor (objective cp_model))
            else sum)).
  { unfold additional_objective.
    pose proof (for_up_objective values
                  (fo_vars (floating_point_objective cp_model)) []
                  (fo_coeffs (floating_point_objective cp_model)) [] xs
                  (fo_offset (floating_point_objective cp_model))
                  eq_refl Hlen Hxs) as Hloop.
    cbn [app length] in Hloop. rewrite Hloop. reflexivity. }
  split; [exact Hobjective|].
  intros [Hzero|Hzero]; rewrite Hobjective, Hzero; reflexivity.
Qed.

Lemma additional_objective_sum_witness :
  additional_objective (stub_convert (model (maximize_request 0 10))) [7]
  = Some (of_Z 7).
Proof.
  exact (proj1 (additional_objective_sum
                  (stub_convert (model (maximize_request 0 10))) [7] [7]
                  (le_n 1) eq_refl)).
Defined.

Lemma convert_and_solve_sorts_ascending_witness :
  let C := stub_collaborators stub_decode stub_validate no_detection
             ranking_engine in
  exists r,
    convert_and_solve stub_default_parameters (maximize_request 0 10)
      (model (maximize_request 0 10)) [one] [] MPSolutionResponse_default
    = Some (OkValue r)
    /\ Permutation ([] ++ [solution_at 9; solution_at 7])
         (additional_solutions r)
    /\ sorted_by (fun left right =>
                    lt (objective_value left) (objective_value right))
         (additional_solutions r).
Proof.
  intros C.
  apply (convert_and_solve_sorts_ascending stub_default_parameters
           (maximize_request 0 10) (model (maximize_request 0 10)) [one] []
           MPSolutionResponse_default
           (stub_convert (model (maximize_request 0 10)))
           (stub_convert (model (maximize_request 0 10)))
           [solution_at 9; solution_at 7]).
  - reflexivity.
  - reflexivity.
  - reflexivity.
  - reflexivity.
  - reflexivity.
  - intros _. eexists. reflexivity.
  - reflexivity.
  - repeat constructor.
Defined.

(** ** Encoded parameters *)

Section Encoding.

Context `{!Collaborators} `{!StdSort} `{!Printers}.

(** X13: [EncodeSatParametersAsString] prints in the encoding that
    [SatSolveProto] decodes: when the parser of the build flavour accepts what
    the printer of that flavour prints, a request that carries the encoded
    parameters gets its blob decoded and no error result. The encoding fails
    only in a lite build, when the serialization fails. *)
Theorem encoded_parameters_are_decoded parameters blob request :
  (kProtoLiteSatParameters = true ->
   forall bytes params,
     SerializeToString parameters = Some bytes ->
     is_Some (MergeFromString bytes params)) ->
  (kProtoLiteSatParameters = false ->
   forall params,
     is_Some (ProtobufTextFormatMergeFromString
                (ProtobufShortDebugString parameters) params)) ->
  EncodeSatParametersAsString parameters = Some blob ->
  solver_specific_parameters request = Some blob ->
  is_Some (decode_parameters blob (initial_parameters request))
  /\ (forall e, SatSolveProto request <> Some (ErrorStatus e))
  /\ (forall other,
        EncodeSatParametersAsString other = None
        <-> kProtoLiteSatParameters = true
            /\ SerializeToString other = None).
Proof.
  intros Hbinary Htext Hencode Hblob.
  assert (Hdecode :
    is_Some (decode_parameters blob (initial_parameters request))).
  { revert Hencode. unfold EncodeSatParametersAsString, decode_parameters.
    destruct kProtoLiteSatParameters.
    - destruct (SerializeToString parameters) as [bytes|] eqn:Hbytes;
        [|discriminate].
      intros Heq. injection Heq as <-. apply (Hbinary eq_refl bytes).
      reflexivity.
    - intros Heq. injection Heq as <-. apply (Htext eq_refl). }
  split; [exact Hdecode|]. split.
  - intros e Herror. apply SatSolveProto_error_iff in Herror.
    revert Herror. unfold solve_parameters.
    fold (initial_parameters request).
    rewrite Hblob, merge_solver_specific_parameters_decode.
    destruct Hdecode as [merged ->].
    destruct (solver_time_limit_seconds request); discriminate.
  - intros other. unfold EncodeSatParametersAsString.
    destruct kProtoLiteSatParameters.
    + destruct (SerializeToString other); split; intros Hnone;
        try discriminate Hnone; auto.
      destruct Hnone as [_ Hnone]. discriminate Hnone.
    + split; [discriminate|]. intros [Hlite _]. discriminate Hlite.
Qed.

End Encoding.

Lemma encoded_parameters_are_decoded_witness :
  let C := stub_collaborators stub_decode stub_validate no_detection
             silent_engine in
  let P := stub_printers in
  let request :=
    with_parameters (maximize_request 0 10) "log_search_progress: true" in
  is_Some (decode_parameters "log_search_progress: true"
             (initial_parameters request))
  /\ (forall e, SatSolveProto request <> Some (ErrorStatus e)).
Proof.
  intros C P request.
  pose proof (encoded_parameters_are_decoded
                (set_log_search_progress stub_default_parameters true)
                "log_search_progress: true" request) as Hencoded.
  destruct Hencoded as (Hdecode & Herror & _).
  - discriminate.
  - intros _ params. simpl. eexists. reflexivity.
  - reflexivity.
  - reflexivity.
  - split; [exact Hdecode|exact Herror].
Defined.

(** ** Order of the validations *)

Section Validations.

Context `{!Collaborators} `{!StdSort}.

(** X14: the model is validated before the parameters are. A request the
    model validator does not accept gets the response the validator
    populated, as it is and whatever its status, and a request that fails the
    extra validation gets a model-invalid response, in both cases without the
    parameter validator being consulted. *)
Theorem model_validation_precedes_parameter_validation
    request params valid request' response' :
  solve_parameters request = OkValue params ->
  ExtractValidMPModelInPlaceOrPopulateResponseStatus request
    MPSolutionResponse_default = (valid, request', response') ->
  (valid = false -> SatSolveProto request = Some (OkValue response'))
  /\ (valid = true ->
      MPModelProtoValidationBeforeConversion params (model request') = false ->
      SatSolveProto request
      = Some (OkValue
                {| status := MPSOLVER_MODEL_INVALID;
                   status_str := "Extra CP-SAT validation failed.";
                   response_objective_value := zero;
                   best_objective_bound := zero;
                   response_variable_value := [];
                   additional_solutions := [];
                   solve_info := {| solve_wall_time_seconds := zero;
                                    solve_user_time_seconds := zero |} |})).
Proof.
  intros Hparams Hextract. unfold SatSolveProto.
  rewrite Hparams, Hextract. split.
  - intros ->. reflexivity.
  - intros -> Hextra. cbn [negb]. rewrite Hextra. reflexivity.
Qed.

Lemma convert_response_status
    request cp_model post_solve cp_response response r :
  convert_response request cp_model post_solve cp_response response = Some r ->
  status r
  = ToMPSolverResponseStatus (cp_status cp_response) (has_objective cp_model).
Proof.
  unfold convert_response.
  match goal with
  | |- context [if ?c then _ else _] => destruct c
  end.
  - destruct (post_solve cp_response) as [s|]; [|discriminate].
    cbn [mbind option_bind]. rewrite for_each_copy_additional_solution.
    destruct (mapM _ _) as [sols|]; [|discriminate].
    cbn [mbind option_bind]. intros Heq. injection Heq as <-. reflexivity.
  - cbn [mbind option_bind]. rewrite for_each_copy_additional_solution.
    destruct (mapM _ _) as [sols|]; [|discriminate].
    cbn [mbind option_bind]. intros Heq. injection Heq as <-. reflexivity.
Qed.

Lemma convert_and_solve_not_unbounded
    params request mp_model var_scaling for_postsolve response r :
  convert_and_solve params request mp_model var_scaling for_postsolve response
    = Some (OkValue r) ->
  status r <> MPSOLVER_UNBOUNDED.
Proof.
  unfold convert_and_solve.
  destruct (only_solve_ip params
            && negb (forallb is_integer (variable mp_model))).
  { intros Heq. injection Heq as <-. discriminate. }
  destruct (ConvertMPModelProtoToCpModelProto params mp_model)
    as [cp_model|].
  2: { intros Heq. injection Heq as <-. discriminate. }
  destruct (negb (Nat.eqb (length (variables cp_model)) (length var_scaling))
            || negb (Nat.eqb (length (variables cp_model))
                       (length (variable mp_model))));
    [discriminate|].
  destruct (copy_and_scale_hint params mp_model var_scaling cp_model)
    as [cp_model'|]; [|discriminate].
  cbn [mbind option_bind].
  match goal with
  | |- context [convert_response ?a ?b ?c ?d ?f] =>
      destruct (convert_response a b c d f) as [r'|] eqn:Hconvert;
        [|discriminate]
  end.
  cbn [mbind option_bind]. intros Heq. injection Heq as <-.
  rewrite (convert_response_status _ _ _ _ _ _ Hconvert).
  destruct (cp_status (SolveCpModel cp_model' params)); discriminate.
Qed.

Lemma scale_and_solve_not_unbounded
    params request mp_model for_postsolve response r :
  scale_and_solve params request mp_model for_postsolve response
    = Some (OkValue r) ->
  status r <> MPSOLVER_UNBOUNDED.
Proof.
  unfold scale_and_solve.
  destruct (mip_automatically_scale_variables params).
  - destruct (DetectImpliedIntegers (RemoveNearZeroTerms params mp_model))
      as [var_scaling m].
    destruct (MakeBoundsOfIntegerVariablesInteger params m) as [[] m'];
      cbn [negb].
    + destruct (scale_continuous params m' var_scaling) as [[vs m'']|];
        [apply convert_and_solve_not_unbounded|discriminate].
    + intros Heq. injection Heq as <-. discriminate.
  - match goal with
    | |- context [scale_continuous ?a ?b ?c] =>
        destruct (scale_continuous a b c) as [[vs m'']|];
          [apply convert_and_solve_not_unbounded|discriminate]
    end.
Qed.

Lemma presolve_and_solve_not_unbounded params request mp_model response r :
  presolve_and_solve params request mp_model response = Some (OkValue r) ->
  status r <> MPSOLVER_UNBOUNDED.
Proof.
  unfold presolve_and_solve.
  destruct (MakeBoundsOfIntegerVariablesInteger params mp_model) as [[] m];
    cbn [negb].
  2: { intros Heq. injection Heq as <-. discriminate. }
  destruct (negb (enumerate_all_solutions params)
            && (0 <? mip_presolve_level params)).
  - destruct (ApplyMipPresolveSteps (RemoveNearZeroTerms params m))
      as [[presolve_status m'] for_postsolve].
    destruct presolve_status;
      try apply scale_and_solve_not_unbounded;
      intros Heq; injection Heq as <-; discriminate.
  - apply scale_and_solve_not_unbounded.
Qed.

(** X15: the adapter reports the status unbounded for no model on its own
    account: a response of [SatSolveProto] either is the response the model
    validator populated for a request it did not accept, or has a status
    other than unbounded. *)
Theorem unbounded_only_from_the_model_validator request r :
  SatSolveProto request = Some (OkValue r) ->
  (exists params request',
     solve_parameters request = OkValue params
     /\ ExtractValidMPModelInPlaceOrPopulateResponseStatus request
          MPSolutionResponse_default = (false, request', r))
  \/ status r <> MPSOLVER_UNBOUNDED.
Proof.
  unfold SatSolveProto.
  destruct (solve_parameters request) as [params|e]; [|discriminate].
  destruct (ExtractValidMPModelInPlaceOrPopulateResponseStatus request
              MPSolutionResponse_default) as [[[] request'] response'];
    cbn [negb].
  - intros Hsolve. right. revert Hsolve.
    destruct (MPModelProtoValidationBeforeConversion params (model request'));
      cbn [negb].
    + destruct (empty (ValidateParameters params)); cbn [negb].
      * apply presolve_and_solve_not_unbounded.
      * intros Heq. injection Heq as <-. discriminate.
    + intros Heq. injection Heq as <-. discriminate.
  - intros Heq. injection Heq as <-. left.
    exists params, request'. split; reflexivity.
Qed.

End Validations.

Lemma model_validation_precedes_parameter_validation_witness :
  let C := with_model_validator
             (stub_collaborators stub_decode stub_validate no_detection
                silent_engine)
             closing_validator in
  let request := with_parameters (maximize_request 0 10) "mip_max_bound: -1" in
  exists params response,
    solve_parameters request = OkValue params
    /\ ValidateParameters params <> ""
    /\ SatSolveProto request = Some (OkValue response)
    /\ status response = MPSOLVER_INFEASIBLE.
Proof.
  intros C request. eexists. eexists.
  split; [reflexivity|]. split; [discriminate|]. split.
  - refine (proj1 (model_validation_precedes_parameter_validation request
                     (set_mip_max_bound stub_default_parameters (of_Z (-1)))
                     false request _ _ _) eq_refl); reflexivity.
  - reflexivity.
Defined.

Lemma unbounded_only_from_the_model_validator_witness :
  let C := stub_collaborators stub_decode stub_validate no_detection
             ranking_engine in
  exists r,
    SatSolveProto (maximize_request 0 10) = Some (OkValue r)
    /\ status r <> MPSOLVER_UNBOUNDED.
Proof.
  intros C. eexists. split; [reflexivity|].
  match goal with
  | |- status ?r <> _ =>
      destruct (unbounded_only_from_the_model_validator
                  (maximize_request 0 10) r)
        as [(params & request' & _ & Hrejected)|Hstatus]
  end.
  - reflexivity.
  - discriminate Hrejected.
  - exact Hstatus.
Defined.
